(** * Radio-Times-Web: the live-metadata resolver ([src/utils/metadataFetcher.js])

    A shallow embedding of the metadata discovery code: the sanitizer
    [cleanMetadata], the four protocol probes, the base-URL deriver
    [getBaseUrl] and the orchestrator [fetchLiveMetadata], together with the
    small part of the JavaScript platform they rest on (strings as UTF-16
    code units, regular expressions with backtracking, parsed JSON values,
    [fetch], [Promise.allSettled]).  Around it: the station directory
    queries, the two callers of the resolver ([handleSyncMetadata] of the
    player, [updateMetadata] of a station card) and the state updates of
    [RadioContext] (recent stations, favorites, sleep timer). *)

From Stdlib Require Import List NArith ZArith Arith Bool Lia String Ascii QArith Permutation.
Import ListNotations.

Set Implicit Arguments.
Close Scope Q_scope.

(** ** Strings *)

Module JsString.

(** A JavaScript string is a sequence of 16-bit code units. *)
Definition char := N.
Definition jsstring := list char.

(** Code units of an ASCII literal of the source. *)
Fixpoint js (s : string) : jsstring :=
  match s with
  | EmptyString => []
  | String a s' => N_of_ascii a :: js s'
  end.

Definition ch (a : ascii) : char := N_of_ascii a.

Fixpoint str_eqb (a b : jsstring) : bool :=
  match a, b with
  | [], [] => true
  | x :: a', y :: b' => N.eqb x y && str_eqb a' b'
  | _, _ => false
  end.

(** [s.substring(a, b)] for [a <= b]. *)
Definition substring (a b : nat) (s : jsstring) : jsstring :=
  firstn (b - a) (skipn a s).

(** WhiteSpace and LineTerminator code units, the ones [trim] removes. *)
Definition is_space (c : char) : bool :=
  ((9 <=? c) && (c <=? 13) || (c =? 32) || (c =? 160) || (c =? 5760)
   || (8192 <=? c) && (c <=? 8202)
   || (c =? 8232) || (c =? 8233) || (c =? 8239) || (c =? 8287)
   || (c =? 12288) || (c =? 65279))%N.

Fixpoint trimStart (s : jsstring) : jsstring :=
  match s with
  | c :: s' => if is_space c then trimStart s' else s
  | [] => []
  end.

Definition trimEnd (s : jsstring) : jsstring := rev (trimStart (rev s)).

Definition trim (s : jsstring) : jsstring := trimEnd (trimStart s).

(** ASCII case mapping; enough to decide whether the lowered text contains an
    ASCII word, since no code unit outside ASCII lowers to an ASCII letter
    of "stream". *)
Definition lower (c : char) : char :=
  if ((65 <=? c) && (c <=? 90))%N then (c + 32)%N else c.

Definition upper (c : char) : char :=
  if ((97 <=? c) && (c <=? 122))%N then (c - 32)%N else c.

Definition toLowerCase (s : jsstring) : jsstring := map lower s.

Fixpoint starts_with (p s : jsstring) : bool :=
  match p, s with
  | [], _ => true
  | x :: p', y :: s' => N.eqb x y && starts_with p' s'
  | _ :: _, [] => false
  end.

(** [s.includes(p)] *)
Fixpoint includes (p s : jsstring) : bool :=
  starts_with p s ||
  match s with
  | [] => false
  | _ :: s' => includes p s'
  end.

(** [s.split(sep)] for a one-unit separator: always at least one piece. *)
Fixpoint split (sep : char) (s : jsstring) : list jsstring :=
  match s with
  | [] => [[]]
  | c :: s' =>
      if N.eqb c sep then [] :: split sep s'
      else match split sep s' with
           | p :: ps => (c :: p) :: ps
           | [] => [[c]]
           end
  end.

End JsString.
Import JsString.

(** ** Regular expressions

    The patterns of the source use single characters and character classes,
    greedy and lazy stars over a class, an optional class, one capture group
    and the end anchor.  [matchfrom] is the backtracking matcher of the
    language: alternatives are tried in the order the specification of
    RegExp prescribes, so the first success is the match the engine reports. *)

Module RegExp.

Inductive node : Type :=
| Char (p : char -> bool)
| Star (greedy : bool) (p : char -> bool)
| Opt (p : char -> bool)
| GroupOpen
| GroupClose
| AtEnd.

Definition regex := list node.

Definition capture := option (nat * nat).

Definition or_else {A} (x : option A) (y : option A) : option A :=
  match x with Some _ => x | None => y end.

(** [matchfrom r s pos op cap]: match [r] against the suffix [s] that starts
    at index [pos]; [op] is where the group was opened, [cap] the group
    captured so far.  The result is the end index and the capture. *)
Fixpoint matchfrom (r : regex)
  : jsstring -> nat -> nat -> capture -> option (nat * capture) :=
  match r with
  | [] => fun _ pos _ cap => Some (pos, cap)
  | a :: r' =>
      let k := matchfrom r' in
      match a with
      | Char p => fun s pos op cap =>
          match s with
          | c :: s' => if p c then k s' (S pos) op cap else None
          | [] => None
          end
      | Star true p =>
          fix star (s : jsstring) (pos op : nat) (cap : capture) :=
            match s with
            | c :: s' =>
                if p c then or_else (star s' (S pos) op cap) (k s pos op cap)
                else k s pos op cap
            | [] => k s pos op cap
            end
      | Star false p =>
          fix star (s : jsstring) (pos op : nat) (cap : capture) :=
            match k s pos op cap with
            | Some x => Some x
            | None =>
                match s with
                | c :: s' => if p c then star s' (S pos) op cap else None
                | [] => None
                end
            end
      | Opt p => fun s pos op cap =>
          match s with
          | c :: s' =>
              if p c then or_else (k s' (S pos) op cap) (k s pos op cap)
              else k s pos op cap
          | [] => k s pos op cap
          end
      | GroupOpen => fun s pos _ cap => k s pos pos cap
      | GroupClose => fun s pos op _ => k s pos op (Some (op, pos))
      | AtEnd => fun s pos op cap =>
          match s with
          | [] => k s pos op cap
          | _ :: _ => None
          end
      end
  end.

(** The leftmost start index at which [r] matches. *)
Fixpoint search (r : regex) (s : jsstring) (pos : nat)
  : option (nat * nat * capture) :=
  match matchfrom r s pos pos None with
  | Some (e, cap) => Some (pos, e, cap)
  | None =>
      match s with
      | [] => None
      | _ :: s' => search r s' (S pos)
      end
  end.

(** The array [text.match(re)] returns for a pattern without the [g] flag:
    the whole match and group 1 ([None]: the group took no part). *)
Record match_array : Type := { whole : jsstring; group1 : option jsstring }.

Definition String_match (r : regex) (text : jsstring) : option match_array :=
  match search r text 0 with
  | Some (b, e, cap) =>
      Some {| whole := substring b e text;
              group1 := option_map (fun '(x, y) => substring x y text) cap |}
  | None => None
  end.

(** [text.replace(re, '')] with the [g] flag.  [skip] counts the code units
    of the current match still to be dropped.  An empty match removes
    nothing and the scan moves one unit on. *)
Fixpoint replace_all (r : regex) (s : jsstring) (skip : nat) : jsstring :=
  match s with
  | [] => []
  | c :: s' =>
      match skip with
      | S n => replace_all r s' n
      | O =>
          match matchfrom r s 0 0 None with
          | Some (S n, _) => replace_all r s' n
          | _ => c :: replace_all r s' 0
          end
      end
  end.

(** [text.replace(re, '')] without the [g] flag: the first match only. *)
Definition replace_first (r : regex) (s : jsstring) : jsstring :=
  match search r s 0 with
  | Some (b, e, _) => firstn b s ++ skipn e s
  | None => s
  end.

(** Character classes. *)
Definition lit (a : ascii) : char -> bool := fun c => N.eqb c (ch a).

(** A literal under the [i] flag: both sides are canonicalised by upper
    casing, and a code unit outside ASCII never canonicalises into ASCII. *)
Definition lit_i (a : ascii) : char -> bool :=
  fun c => N.eqb (upper c) (upper (ch a)).

Definition not_lit (a : ascii) : char -> bool := fun c => negb (N.eqb c (ch a)).

(** [.]: anything but a line terminator. *)
Definition dot : char -> bool :=
  fun c => negb ((c =? 10) || (c =? 13) || (c =? 8232) || (c =? 8233))%N.

(** [[\x00-\x1F\x7F-\x9F]] *)
Definition control : char -> bool :=
  fun c => ((c <=? 31) || (127 <=? c) && (c <=? 159))%N.

Fixpoint lits (s : string) : regex :=
  match s with
  | EmptyString => []
  | String a s' => Char (lit a) :: lits s'
  end.

Fixpoint lits_i (s : string) : regex :=
  match s with
  | EmptyString => []
  | String a s' => Char (lit_i a) :: lits_i s'
  end.

End RegExp.
Import RegExp.

(** ** The sanitizer *)

(** [/<[^>]*>?/gm] *)
Definition tag_re : regex := [Char (lit "<"); Star true (not_lit ">"); Opt (lit ">")].

(** [/[\x00-\x1F\x7F-\x9F]/g] *)
Definition control_re : regex := [Char control].

(** The body of [cleanMetadata] on a non-empty string: the two [replace]
    calls, then [trim] and [substring(0, 100)]. *)
Definition strip (text : jsstring) : jsstring :=
  replace_all control_re (replace_all tag_re text 0) 0.

Definition clean (text : jsstring) : jsstring :=
  let cleaned := strip text in
  firstn 100 (trim cleaned).

(** ** Values, completions and effects *)

Module Js.

(** A value as [response.json()] or a property read can produce it. *)
#[local] Unset Elimination Schemes.
Inductive value : Type :=
| VUndefined
| VNull
| VBool (b : bool)
| VNum (q : Q)
| VStr (s : jsstring)
| VArr (elems : list value)
| VObj (fields : list (jsstring * value)).
#[local] Set Elimination Schemes.

(** ToBoolean *)
Definition truthy (v : value) : bool :=
  match v with
  | VUndefined | VNull => false
  | VBool b => b
  | VNum q => negb (Qeq_bool q 0%Q)
  | VStr s => match s with [] => false | _ :: _ => true end
  | VArr _ | VObj _ => true
  end.

(** How a synchronous evaluation ends.  The thrown value is never inspected
    by the source (the handlers ignore it or only log it), so [Throw] carries
    none. *)
Inductive completion (A : Type) : Type :=
| Normal (a : A)
| Throw.
Arguments Throw {A}.

Definition cbind {A B} (m : completion A) (k : A -> completion B) : completion B :=
  match m with
  | Normal a => k a
  | Throw => Throw
  end.

(** A promise, given by its fate: fulfilled with a value, rejected, or never
    settled. *)
Inductive promise (A : Type) : Type :=
| Fulfill (a : A)
| Reject
| Pending.
Arguments Reject {A}.
Arguments Pending {A}.

Fixpoint lookup (name : jsstring) (fields : list (jsstring * value)) : value :=
  match fields with
  | [] => VUndefined
  | (k, v) :: rest => if str_eqb k name then v else lookup name rest
  end.

(** [v.name] for the property names of the source ([icestats], [source],
    [title], [songtitle], [streams]): a TypeError on [null] and [undefined],
    the own property on an object, [undefined] on anything else. *)
Definition get (v : value) (name : jsstring) : completion value :=
  match v with
  | VUndefined | VNull => Throw
  | VObj fields => Normal (lookup name fields)
  | _ => Normal VUndefined
  end.

(** [v[0]] *)
Definition get0 (v : value) : completion value :=
  match v with
  | VUndefined | VNull => Throw
  | VArr elems => Normal (hd VUndefined elems)
  | VStr s => Normal (match s with c :: _ => VStr [c] | [] => VUndefined end)
  | VObj fields => Normal (lookup (js "0") fields)
  | _ => Normal VUndefined
  end.

(** The code of an [async] function: it ends as the function's promise does,
    and the URLs requested so far are threaded through as a trace. *)
Definition Eff (A : Type) : Type := list jsstring -> promise A * list jsstring.

Definition ret {A} (a : A) : Eff A := fun log => (Fulfill a, log).

Definition bind {A B} (m : Eff A) (k : A -> Eff B) : Eff B :=
  fun log =>
    match m log with
    | (Fulfill a, log') => k a log'
    | (Reject, log') => (Reject, log')
    | (Pending, log') => (Pending, log')
    end.

(** Synchronous code inside the function: an exception rejects the promise
    unless a handler catches it. *)
Definition lift {A} (c : completion A) : Eff A :=
  fun log => (match c with Normal a => Fulfill a | Throw => Reject end, log).

(** [await p] *)
Definition await {A} (p : promise A) : Eff A := fun log => (p, log).

(** [try { body } catch (e) { handler }] *)
Definition try_catch {A} (body handler : Eff A) : Eff A :=
  fun log =>
    match body log with
    | (Reject, log') => handler log'
    | r => r
    end.

(** Calling an [async] function: the body runs, the caller gets the promise
    and never sees the body's exception. *)
Definition async {A} (body : Eff A) : Eff (promise A) :=
  fun log => let '(p, log') := body log in (Fulfill p, log').

Definition run {A} (m : Eff A) : promise A * list jsstring := m [].

End Js.
Import Js.

Declare Scope eff_scope.
Delimit Scope eff_scope with eff.
Notation "x <- m ;; k" := (bind m (fun x => k))
  (at level 61, m at next level, right associativity) : eff_scope.
Notation "'let*' x := m 'in' k" := (cbind m (fun x => k))
  (at level 61, x name, m at next level, right associativity).
Open Scope eff_scope.

(** ** The platform: network, URL parser, promises *)

Module Platform.

Record response : Type := {
  status : N;
  (** what [response.text()] resolves to; [None]: reading the body fails
      (a body is read once: a probe consults one of the two) *)
  body_text : option jsstring;
  (** what [response.json()] resolves to; [None]: the body is not JSON *)
  body_json : option value
}.

Definition ok (r : response) : bool := ((200 <=? status r) && (status r <=? 299))%N.

Inductive fetch_result : Type :=
| NetworkError
| Response (r : response).

(** The network answers the [n]-th request of a run, for a URL. *)
Definition network := nat -> jsstring -> fetch_result.

(** [await fetch(url)] *)
Definition fetch (net : network) (url : jsstring) : Eff response :=
  fun log =>
    (match net (List.length log) url with
     | NetworkError => Reject
     | Response r => Fulfill r
     end, log ++ [url]).

(** [await response.text()], [await response.json()] *)
Definition text (r : response) : Eff jsstring :=
  lift (match body_text r with Some t => Normal t | None => Throw end).

Definition json (r : response) : Eff value :=
  lift (match body_json r with Some v => Normal v | None => Throw end).

(** The fields of a [URL] object the source reads. *)
Record URL : Type := { protocol : jsstring; host : jsstring; pathname : jsstring }.

(** An element of the array [Promise.allSettled] resolves to. *)
Inductive settled (A : Type) : Type :=
| Fulfilled (v : A)
| Rejected.
Arguments Rejected {A}.

Fixpoint update {A} (i : nat) (x : A) (l : list A) : list A :=
  match l, i with
  | [], _ => []
  | _ :: t, O => x :: t
  | h :: t, S j => h :: update j x t
  end.

Fixpoint all_some {A} (l : list (option A)) : option (list A) :=
  match l with
  | [] => Some []
  | Some a :: t => option_map (cons a) (all_some t)
  | None :: _ => None
  end.

(** When promise [i] settles, its outcome is written to slot [i] of the
    result array; a promise that never settles writes nothing. *)
Definition settle_one {A} (ps : list (promise A))
    (slots : list (option (settled A))) (i : nat) : list (option (settled A)) :=
  match nth_error ps i with
  | Some (Fulfill v) => update i (Some (Fulfilled v)) slots
  | Some Reject => update i (Some Rejected) slots
  | _ => slots
  end.

(** [Promise.allSettled(ps)] when the promises settle in the order [sched]
    (indices into [ps]): fulfilled once every slot is written, with the
    outcomes in the order of [ps]. *)
Definition Promise_allSettled {A} (sched : list nat) (ps : list (promise A))
  : promise (list (settled A)) :=
  let slots := fold_left (settle_one ps) sched (repeat None (List.length ps)) in
  match all_some slots with
  | Some results => Fulfill results
  | None => Pending
  end.

End Platform.
Import Platform.

(** ** The source: [metadataFetcher.js] *)

Module MetadataFetcher.

Definition CORS_PROXY : jsstring := js "https://corsproxy.io/?".

(** [cleanMetadata]: a falsy [text] gives the empty string; otherwise
    [text.replace] is called, which only a string has. *)
Definition cleanMetadata (text : value) : completion jsstring :=
  if negb (truthy text) then Normal []
  else match text with
       | VStr t => Normal (clean t)
       | _ => Throw
       end.

(** The pattern of [fetchShoutcastV1]: six times a greedy [.*] and a comma,
    then the group, a greedy [.*] again. *)
Definition shoutcast_re : regex :=
  [Star true dot; Char (lit ","); Star true dot; Char (lit ",");
   Star true dot; Char (lit ","); Star true dot; Char (lit ",");
   Star true dot; Char (lit ","); Star true dot; Char (lit ",");
   GroupOpen; Star true dot; GroupClose].

Definition dquote : ascii := ascii_of_N 34.

(** The pattern of [fetchIcecastRaw], under the [i] flag: the cell with
    [Current Song:], the opening of the [streamdata] cell, a lazy [.*?] as the
    group, and the closing [</td>]. *)
Definition icecast_re : regex :=
  lits_i "Current Song:</td><td class=" ++ [Char (lit_i dquote)]
  ++ lits_i "streamdata" ++ [Char (lit_i dquote)] ++ lits_i ">"
  ++ [GroupOpen; Star false dot; GroupClose] ++ lits_i "</td>".

(** [match[1]] *)
Definition group (m : match_array) : value :=
  match group1 m with
  | Some s => VStr s
  | None => VUndefined
  end.

Section Probes.

Variable net : network.

Definition fetchShoutcastV1 (baseUrl : jsstring) : Eff (option jsstring) :=
  try_catch
    (response <- fetch net (CORS_PROXY ++ baseUrl ++ js "/7.html") ;;
     if negb (ok response) then ret None
     else
       text <- text response ;;
       match String_match shoutcast_re text with
       | Some m => c <- lift (cleanMetadata (group m)) ;; ret (Some c)
       | None => ret None
       end)
    (ret None).

(** The [for ... of] loop of [fetchIcecastJson]. *)
Fixpoint first_titled (sources : list value) : completion (option jsstring) :=
  match sources with
  | [] => Normal None
  | source :: rest =>
      let* title := get source (js "title") in
      if truthy title then
        let* c := cleanMetadata title in Normal (Some c)
      else first_titled rest
  end.

(** What [fetchIcecastJson] does with the parsed payload; the test
    [Array.isArray] is the match on [VArr]. *)
Definition icecast_title (data : value) : completion (option jsstring) :=
  if truthy data then
    let* icestats := get data (js "icestats") in
    if truthy icestats then
      let* source := get icestats (js "source") in
      if truthy source then
        let sources :=
          match source with
          | VArr elems => elems
          | _ => [source]
          end in
        first_titled sources
      else Normal None
    else Normal None
  else Normal None.

Definition fetchIcecastJson (baseUrl : jsstring) : Eff (option jsstring) :=
  try_catch
    (response <- fetch net (CORS_PROXY ++ baseUrl ++ js "/status-json.xsl") ;;
     if negb (ok response) then ret None
     else
       data <- json response ;;
       lift (icecast_title data))
    (ret None).

(** What [fetchShoutcastV2] does with the parsed payload. *)
Definition shoutcast2_title (data : value) : completion (option jsstring) :=
  if truthy data then
    let* songtitle := get data (js "songtitle") in
    if truthy songtitle then
      let* c := cleanMetadata songtitle in Normal (Some c)
    else
      let* streams := get data (js "streams") in
      if truthy streams then
        let* first := get0 streams in
        if truthy first then
          let* songtitle0 := get first (js "songtitle") in
          if truthy songtitle0 then
            let* c := cleanMetadata songtitle0 in Normal (Some c)
          else Normal None
        else Normal None
      else Normal None
  else Normal None.

Definition fetchShoutcastV2 (baseUrl : jsstring) : Eff (option jsstring) :=
  try_catch
    (response <- fetch net (CORS_PROXY ++ baseUrl ++ js "/stats?json=1") ;;
     if negb (ok response) then ret None
     else
       data <- json response ;;
       lift (shoutcast2_title data))
    (ret None).

Definition fetchIcecastRaw (baseUrl : jsstring) : Eff (option jsstring) :=
  try_catch
    (response <- fetch net (CORS_PROXY ++ baseUrl ++ js "/status.xsl") ;;
     if negb (ok response) then ret None
     else
       text <- text response ;;
       match String_match icecast_re text with
       | Some m => c <- lift (cleanMetadata (group m)) ;; ret (Some c)
       | None => ret None
       end)
    (ret None).

(** [new URL(streamUrl)]: [None] when the constructor throws. *)
Variable new_URL : jsstring -> option URL.

(** [streamUrl.split('?')[0]] *)
Definition before_query (streamUrl : jsstring) : jsstring :=
  hd [] (split (ch "?") streamUrl).

Definition getBaseUrl (streamUrl : jsstring) : jsstring :=
  match new_URL streamUrl with
  | Some url =>
      let base := protocol url ++ js "//" ++ host url in
      if str_eqb (pathname url) (js "/") || str_eqb (pathname url) (js "/;")
         || includes (js "stream") (toLowerCase (pathname url))
      then base
      else
        let segments :=
          filter (fun s => match s with [] => false | _ => negb (str_eqb s (js ";")) end)
                 (split (ch "/") (pathname url)) in
        if 1 <? List.length segments
        then base ++ js "/" ++ hd [] segments
        else base
  | None => replace_first [Char (lit "/"); AtEnd] (before_query streamUrl)
  end.

(** [r.status === 'fulfilled' && r.value] *)
Definition has_content (r : settled (option jsstring)) : bool :=
  match r with
  | Fulfilled (Some (_ :: _)) => true
  | _ => false
  end.

(** [r.value] of an entry that passed the filter. *)
Definition value_of (r : settled (option jsstring)) : option jsstring :=
  match r with
  | Fulfilled v => v
  | Rejected => None
  end.

(** [fetchLiveMetadata], with the implementation of [Promise.allSettled] as
    an argument.  [streamUrl] is a string or, as [None], [null] or
    [undefined]. *)
Definition fetchLiveMetadata_with
    (allSettled : list (promise (option jsstring))
                  -> promise (list (settled (option jsstring))))
    (streamUrl : option jsstring) : Eff (option jsstring) :=
  match streamUrl with
  | None | Some [] => ret None
  | Some streamUrl =>
      let base := getBaseUrl streamUrl in
      s0 <- async (fetchShoutcastV1 base) ;;
      s1 <- async (fetchShoutcastV2 base) ;;
      s2 <- async (fetchIcecastJson base) ;;
      s3 <- async (fetchIcecastRaw base) ;;
      s4 <- async (fetchShoutcastV1 (before_query streamUrl)) ;;
      s5 <- async (fetchIcecastJson (before_query streamUrl)) ;;
      s6 <- async (fetchIcecastRaw (before_query streamUrl)) ;;
      let strategies := [s0; s1; s2; s3; s4; s5; s6] in
      try_catch
        (results <- await (allSettled strategies) ;;
         let valid := map value_of (filter has_content results) in
         ret (hd None valid))
        (ret None)
  end.

(** [fetchLiveMetadata] when the probes settle in the order [sched]. *)
Definition fetchLiveMetadata (sched : list nat) (streamUrl : option jsstring)
  : Eff (option jsstring) :=
  fetchLiveMetadata_with (Promise_allSettled sched) streamUrl.

End Probes.

End MetadataFetcher.
Import MetadataFetcher.

(** ** A model of the URL constructor

    [new URL] is the platform's; [getBaseUrl] is stated over any behaviour of
    it.  To run [getBaseUrl] on concrete addresses, [URL_parse] models the
    constructor on plain [http] and [https] addresses
    [scheme://host[:port][/path][?query][#fragment]], without credentials,
    percent-encoding, dot segments or default-port elision; anything else is
    reported as a failure. *)

Module UrlModel.

Fixpoint span (p : char -> bool) (s : jsstring) : jsstring * jsstring :=
  match s with
  | c :: s' => if p c then let '(a, b) := span p s' in (c :: a, b) else ([], s)
  | [] => ([], [])
  end.

Definition ends_authority (c : char) : bool :=
  N.eqb c (ch "/") || N.eqb c (ch "?") || N.eqb c (ch "#").

Definition ends_path (c : char) : bool :=
  N.eqb c (ch "?") || N.eqb c (ch "#").

Definition URL_parse (s : jsstring) : option URL :=
  let '(scheme, rest) := span (fun c => negb (N.eqb c (ch ":"))) s in
  let scheme := toLowerCase scheme in
  if (str_eqb scheme (js "http") || str_eqb scheme (js "https"))
     && starts_with (js "://") rest
  then
    let '(authority, rest) := span (fun c => negb (ends_authority c)) (skipn 3 rest) in
    let '(path, _) := span (fun c => negb (ends_path c)) rest in
    match authority with
    | [] => None
    | _ :: _ =>
        Some {| protocol := scheme ++ js ":";
                host := toLowerCase authority;
                pathname := match path with [] => js "/" | _ :: _ => path end |}
    end
  else None.

End UrlModel.
Import UrlModel.

(** ** Properties stated over the embedding *)

Module Spec.

(** The Metadata invariant: at most 100 code units, no match of the tag
    pattern anywhere, no control character. *)
Definition no_tags (out : jsstring) : Prop := search tag_re out 0 = None.

Definition no_controls (out : jsstring) : Prop :=
  Forall (fun c => control c = false) out.

Definition Metadata (out : jsstring) : Prop :=
  List.length out <= 100 /\ no_tags out /\ no_controls out.

(** [clean(clean(x))] *)
Definition clean_twice (x : jsstring) : completion jsstring :=
  let* y := cleanMetadata (VStr x) in cleanMetadata (VStr y).

Definition ends_in_space (s : jsstring) : bool :=
  match rev s with
  | c :: _ => is_space c
  | [] => false
  end.

Definition starts_in_space (s : jsstring) : bool :=
  match s with
  | c :: _ => is_space c
  | [] => false
  end.

Definition no_lt (s : jsstring) : Prop := Forall (fun c => c <> ch "<") s.

(** The URL a probe requests. *)
Definition endpoint (baseUrl : jsstring) (path : string) : jsstring :=
  CORS_PROXY ++ baseUrl ++ js path.

(** A network that gives every request the same answer. *)
Definition always (a : fetch_result) : network := fun _ _ => a.

(** The value a probe produces when the network answers its request with
    [a]. *)
Definition probe_value (probe : network -> jsstring -> Eff (option jsstring))
    (a : fetch_result) : option jsstring :=
  match fst (run (probe (always a) [])) with
  | Fulfill v => v
  | _ => None
  end.

(** The four probes with their endpoints. *)
Definition probes : list ((network -> jsstring -> Eff (option jsstring)) * string) :=
  [(fetchShoutcastV1, "/7.html"%string); (fetchShoutcastV2, "/stats?json=1"%string);
   (fetchIcecastJson, "/status-json.xsl"%string); (fetchIcecastRaw, "/status.xsl"%string)].

(** The seven requests of a call, in the order they are issued. *)
Definition requests (base raw : jsstring) : list jsstring :=
  [endpoint base "/7.html"; endpoint base "/stats?json=1";
   endpoint base "/status-json.xsl"; endpoint base "/status.xsl";
   endpoint raw "/7.html"; endpoint raw "/status-json.xsl";
   endpoint raw "/status.xsl"].

(** The values of the seven probes, in the fixed order. *)
Definition probe_values (net : network) (base raw : jsstring) : list (option jsstring) :=
  [probe_value fetchShoutcastV1 (net 0 (endpoint base "/7.html"));
   probe_value fetchShoutcastV2 (net 1 (endpoint base "/stats?json=1"));
   probe_value fetchIcecastJson (net 2 (endpoint base "/status-json.xsl"));
   probe_value fetchIcecastRaw (net 3 (endpoint base "/status.xsl"));
   probe_value fetchShoutcastV1 (net 4 (endpoint raw "/7.html"));
   probe_value fetchIcecastJson (net 5 (endpoint raw "/status-json.xsl"));
   probe_value fetchIcecastRaw (net 6 (endpoint raw "/status.xsl"))].

(** The first value of a list that is a non-empty string. *)
Fixpoint first_content (vs : list (option jsstring)) : option jsstring :=
  match vs with
  | [] => None
  | Some (c :: s) :: _ => Some (c :: s)
  | _ :: rest => first_content rest
  end.

(** The first value of a list that is not absent. *)
Fixpoint first_present (vs : list (option jsstring)) : option jsstring :=
  match vs with
  | [] => None
  | Some s :: _ => Some s
  | None :: rest => first_present rest
  end.

(** The entry of the result array a settled promise gives. *)
Definition outcome {A} (p : promise A) : option (settled A) :=
  match p with
  | Fulfill v => Some (Fulfilled v)
  | Reject => Some Rejected
  | Pending => None
  end.

(** Responses and payloads. *)
Definition text_ok (t : jsstring) : fetch_result :=
  Response {| status := 200; body_text := Some t; body_json := None |}.

Definition json_ok (data : value) : fetch_result :=
  Response {| status := 200; body_text := None; body_json := Some data |}.

Definition not_found : fetch_result :=
  Response {| status := 404; body_text := Some []; body_json := None |}.

Definition obj (fields : list (string * value)) : value :=
  VObj (map (fun '(k, v) => (js k, v)) fields).

Definition str (s : string) : value := VStr (js s).

(** [data.icestats.source], when the guard of [fetchIcecastJson] lets it
    through. *)
Definition icestats_source (data : value) : option value :=
  if truthy data then
    match get data (js "icestats") with
    | Normal icestats =>
        if truthy icestats then
          match get icestats (js "source") with
          | Normal source => if truthy source then Some source else None
          | _ => None
          end
        else None
    | _ => None
    end
  else None.

(** The sources scanned: the elements of a list, or the single source. *)
Definition sources_of (source : value) : list value :=
  match source with
  | VArr elems => elems
  | _ => [source]
  end.

(** A source without a title: reading [title] gives a falsy value. *)
Definition untitled (source : value) : Prop :=
  exists t, get source (js "title") = Normal t /\ truthy t = false.

(** [{ icestats: { source: [null, { title: 'Song' }] } }] *)
Definition payload_null_first : value :=
  obj [("icestats"%string,
        obj [("source"%string, VArr [VNull; obj [("title"%string, str "Song")]])])].

(** [{ icestats: { source: [{ title: 1984 }, { title: 'Song' }] } }] *)
Definition payload_numeric_title : value :=
  obj [("icestats"%string,
        obj [("source"%string,
              VArr [obj [("title"%string, VNum (1984 # 1))];
                    obj [("title"%string, str "Song")]])])].

(** [{ icestats: { source: [{ listeners: 3 }, { title: 'Song' }] } }] *)
Definition payload_second_titled : value :=
  obj [("icestats"%string,
        obj [("source"%string,
              VArr [obj [("listeners"%string, VNum (3 # 1))];
                    obj [("title"%string, str "Song")]])])].

(** [{ icestats: { source: [{ listeners: 3 }, { title: ' Song ' }] } }] *)
Definition payload_padded_title : value :=
  obj [("icestats"%string,
        obj [("source"%string,
              VArr [obj [("listeners"%string, VNum (3 # 1))];
                    obj [("title"%string, str " Song ")]])])].

(** A server whose [7.html] has an empty title and whose
    [status-json.xsl] names a song; every other endpoint is missing. *)
Definition net_empty_title : network :=
  fun n _ =>
    match n with
    | 0 => text_ok (js "1,1,1,1,1,1,")
    | 2 => json_ok (obj [("icestats"%string,
                          obj [("source"%string, obj [("title"%string, str "Song")])])])
    | _ => not_found
    end.

(** The pattern of [fetchShoutcastV1] by its blocks: [k] times [.*,], then
    the group. *)
Fixpoint fields_then_group (k : nat) : regex :=
  match k with
  | O => [GroupOpen; Star true dot; GroupClose]
  | S k' => Star true dot :: Char (lit ",") :: fields_then_group k'
  end.

Definition commas (s : jsstring) : nat :=
  List.length (filter (fun c => N.eqb c (ch ",")) s).

(** A text without a line terminator. *)
Definition one_line (s : jsstring) : Prop := Forall (fun c => dot c = true) s.

End Spec.
Import Spec.

(** ** The station directory: [countryData.js] *)

Module CountryData.

Definition API_BASE : jsstring := js "https://de1.api.radio-browser.info/json".

(** An entry of the list [fetchAvailableCountries] builds. *)
Record country : Type := { code : jsstring; name : value; count : value }.

Section Directory.

Variable net : network.

(** [String.prototype.toLowerCase] and the conversion of a template literal,
    both the platform's. *)
Variable lowercase : jsstring -> jsstring.
Variable ToString : value -> jsstring.

(** [Array.prototype.sort] with the comparator
    [(a, b) => a.name.localeCompare(b.name)], the platform's; it throws when
    the comparator does. *)
Variable sort_by_name : list country -> completion (list country).

Definition fetchStationsByCountry (countryCode : jsstring) : Eff value :=
  try_catch
    (response <- fetch net (API_BASE ++ js "/stations/bycountrycodeexact/"
                            ++ lowercase countryCode) ;;
     if negb (ok response) then lift Throw
     else
       data <- json response ;;
       ret data)
    (ret (VArr [])).

(** [limit = 100]: the default stands in for [undefined]. *)
Definition fetchTopStations (limit : value) : Eff value :=
  let limit := match limit with VUndefined => VNum (100 # 1) | _ => limit end in
  try_catch
    (response <- fetch net (API_BASE ++ js "/stations/topvote/" ++ ToString limit) ;;
     if negb (ok response) then lift Throw
     else json response)
    (ret (VArr [])).

(** [data.filter(c => c.iso_3166_1)] on the elements of an array. *)
Fixpoint with_code (elems : list value) : completion (list value) :=
  match elems with
  | [] => Normal []
  | c :: rest =>
      let* iso := get c (js "iso_3166_1") in
      let* kept := with_code rest in
      Normal (if truthy iso then c :: kept else kept)
  end.

(** [x.toLowerCase()]: only a string has the method. *)
Definition toLowerCase_of (x : value) : completion jsstring :=
  match x with
  | VUndefined | VNull => Throw
  | VStr s => Normal (lowercase s)
  | _ => Throw
  end.

(** The callback of [map]. *)
Definition to_country (c : value) : completion country :=
  let* iso := get c (js "iso_3166_1") in
  let* code := toLowerCase_of iso in
  let* name := get c (js "name") in
  let* count := get c (js "stationcount") in
  Normal {| code := code; name := name; count := count |}.

Fixpoint to_countries (elems : list value) : completion (list country) :=
  match elems with
  | [] => Normal []
  | c :: rest =>
      let* entry := to_country c in
      let* entries := to_countries rest in
      Normal (entry :: entries)
  end.

(** What [fetchAvailableCountries] does with the parsed payload; [filter] is
    a method of arrays only. *)
Definition countries_of (data : value) : completion (list country) :=
  match data with
  | VArr elems =>
      let* kept := with_code elems in
      let* entries := to_countries kept in
      sort_by_name entries
  | _ => Throw
  end.

Definition fetchAvailableCountries : Eff (list country) :=
  try_catch
    (response <- fetch net (API_BASE ++ js "/countries") ;;
     if negb (ok response) then lift Throw
     else
       data <- json response ;;
       lift (countries_of data))
    (ret []).

End Directory.

End CountryData.
Import CountryData.

(** ** The shared state: [RadioContext.jsx] *)

Module RadioContext.

(** A station object of the directory: the fields the code reads, and the
    rest of it. *)
Record station : Type := {
  stationuuid : jsstring;
  url_resolved : option jsstring;
  url : option jsstring;
  details : value
}.

(** [currentStation?.stationuuid === station.stationuuid] *)
Definition same_station (currentStation : option station) (s : station) : bool :=
  match currentStation with
  | Some c => str_eqb (stationuuid c) (stationuuid s)
  | None => false
  end.

Record playback : Type := {
  currentStation : option station;
  isPlaying : bool;
  recentStations : list station
}.

(** The updater [playStation] hands to [setRecentStations]. *)
Definition recent_with (s : station) (prev : list station) : list station :=
  let filtered :=
    filter (fun r => negb (str_eqb (stationuuid r) (stationuuid s))) prev in
  firstn 15 (s :: filtered).

Definition playStation (s : station) (st : playback) : playback :=
  if same_station (currentStation st) s then
    {| currentStation := currentStation st;
       isPlaying := negb (isPlaying st);
       recentStations := recentStations st |}
  else
    {| currentStation := Some s;
       isPlaying := true;
       recentStations := recent_with s (recentStations st) |}.

(** The updater of [toggleFavorite]. *)
Definition toggleFavorite (s : station) (prev : list station) : list station :=
  let isFav := existsb (fun f => str_eqb (stationuuid f) (stationuuid s)) prev in
  if isFav then filter (fun f => negb (str_eqb (stationuuid f) (stationuuid s))) prev
  else prev ++ [s].

Definition isStationFavorite (favorites : list station) (stationId : jsstring) : bool :=
  existsb (fun f => str_eqb (stationuuid f) stationId) favorites.

(** The numbers of the timer are whole numbers held in doubles.  The result
    of an operation is the nearest double of the exact result: a whole number
    is kept as it is up to [2^53] in size; above, it is rounded to 53
    significant bits, a tie going to the even significand.  (Sizes from
    [2^1024] on, where a double is infinite, are outside the model.) *)
Definition to_double (z : Z) : Z :=
  if (Z.abs z <=? 2 ^ 53)%Z then z
  else
    let e := (Z.log2 (Z.abs z) - 52)%Z in
    let q := (Z.abs z / 2 ^ e)%Z in
    let r := (Z.abs z mod 2 ^ e)%Z in
    let half := (2 ^ (e - 1))%Z in
    let up :=
      if (half <? r)%Z then true
      else if (r =? half)%Z then Z.odd q
      else false in
    (Z.sgn z * ((if up then q + 1 else q) * 2 ^ e))%Z.

(** One tick of the sleep timer, every second while it runs: the updater of
    [setSleepTimer] on the seconds left, with the [setIsPlaying(false)] it
    makes on the way. *)
Definition tick (st : option Z * bool) : option Z * bool :=
  match st with
  | (None, playing) => (None, playing)
  | (Some prev, playing) =>
      if (prev <=? 1)%Z then (None, false)
      else (Some (to_double (prev - 1)), playing)
  end.

(** [handleSetTimer] of the header and of the player, on a whole number of
    minutes. *)
Definition handleSetTimer (mins : Z) : option Z :=
  if (mins =? 0)%Z then None else Some (to_double (mins * 60)).

End RadioContext.
Import RadioContext.

(** ** The callers of the resolver *)

Module Callers.

(** [station.url_resolved || station.url] *)
Definition stream_address (s : station) : option jsstring :=
  match url_resolved s with
  | Some (c :: u) => Some (c :: u)
  | _ => url s
  end.

(** The state of [AudioPlayer] that the synchronisation touches. *)
Record player : Type := { liveSong : option jsstring; isSyncing : bool }.

Section WithResolver.

Variable net : network.
Variable new_URL : jsstring -> option URL.
Variable sched : list nat.

(** [handleSyncMetadata] of [AudioPlayer]: the promise of the call, the state
    it leaves, and the trace. *)
Definition handleSyncMetadata (currentStation : option station) (isPlaying : bool)
    (st : player) (log : list jsstring) : promise unit * player * list jsstring :=
  match currentStation with
  | Some s =>
      if isPlaying then
        let syncing := {| liveSong := liveSong st; isSyncing := true |} in
        match fetchLiveMetadata net new_URL sched (stream_address s) log with
        | (Fulfill song, log') =>
            let shown :=
              match song with
              | Some (c :: t) => Some (c :: t)
              | _ => liveSong syncing
              end in
            (Fulfill tt, {| liveSong := shown; isSyncing := false |}, log')
        | (Reject, log') =>
            (Fulfill tt, {| liveSong := liveSong syncing; isSyncing := false |}, log')
        | (Pending, log') => (Pending, syncing, log')
        end
      else (Fulfill tt, st, log)
  | None => (Fulfill tt, st, log)
  end.

(** [updateMetadata] of [StationCard], on the card's [liveMetadata]. *)
Definition updateMetadata (isActive isPlaying : bool) (s : station)
    (liveMetadata : option jsstring) (log : list jsstring)
  : promise unit * option jsstring * list jsstring :=
  if isActive && isPlaying then
    match fetchLiveMetadata net new_URL sched (stream_address s) log with
    | (Fulfill song, log') =>
        (Fulfill tt,
         match song with
         | Some (c :: t) => Some (c :: t)
         | _ => liveMetadata
         end, log')
    | (Reject, log') => (Reject, liveMetadata, log')
    | (Pending, log') => (Pending, liveMetadata, log')
    end
  else (Fulfill tt, None, log).

End WithResolver.

End Callers.
Import Callers.

(** ** Properties stated over the rest of the code *)

Module Props.

(** [protocol//host] of a parsed address. *)
Definition origin (u : URL) : jsstring := protocol u ++ js "//" ++ host u.

Definition slash : char := ch "/".

(** The text of a pattern literal read under the [i] flag: the same letters
    in either case. *)
Definition same_letters (s : string) (m : jsstring) : Prop :=
  Forall2 (fun a c => lit_i a c = true) (list_ascii_of_string s) m.

(** The literal head of the pattern of [fetchIcecastRaw]. *)
Definition current_song_cell : string :=
  ("Current Song:</td><td class=" ++ String dquote "streamdata" ++ String dquote ">")%string.

(** The pattern matches at none of the first [k] positions of [s]. *)
Definition no_match_before (r : regex) (s : jsstring) (k : nat) : bool :=
  forallb (fun n => match matchfrom r (skipn n s) n n None with
                    | None => true
                    | Some _ => false
                    end) (seq 0 k).

(** [{ streams: [{ songtitle: 'A - B' }, { songtitle: 'C - D' }] }] *)
Definition payload_two_streams : value :=
  obj [("streams"%string,
        VArr [obj [("songtitle"%string, str "A - B")];
              obj [("songtitle"%string, str "C - D")]])].

(** A status page with the cell pair in mixed case. *)
Definition status_page_head : jsstring := js "<table><tr><td>".

Definition status_page_cell : jsstring :=
  js "current song:</TD><td CLASS=" ++ [ch dquote] ++ js "streamdata" ++ [ch dquote]
  ++ js ">".

(** [c.iso_3166_1], [undefined] when it cannot be read. *)
Definition iso_code (c : value) : value :=
  match get c (js "iso_3166_1") with
  | Normal v => v
  | Throw => VUndefined
  end.

Definition coded (c : value) : bool := truthy (iso_code c).

(** An element of the payload the callbacks of [fetchAvailableCountries] can
    read: not [null], and with a code that, if there is one, is a string. *)
Definition readable (c : value) : Prop :=
  (exists v, get c (js "iso_3166_1") = Normal v)
  /\ (coded c = true -> exists s, iso_code c = VStr s).

Definition field_of (c : value) (name : string) : value :=
  match get c (js name) with
  | Normal v => v
  | Throw => VUndefined
  end.

(** The entry built for a readable element with a code. *)
Definition entry_of (lowercase : jsstring -> jsstring) (c : value) : country :=
  {| code := match iso_code c with VStr s => lowercase s | _ => [] end;
     name := field_of c "name";
     count := field_of c "stationcount" |}.

(** A payload of the country list: two countries and an element without a
    code. *)
Definition payload_countries : value :=
  VArr [obj [("iso_3166_1"%string, str "DE"); ("name"%string, str "Germany");
             ("stationcount"%string, VNum (5 # 1))];
        obj [("name"%string, str "Nowhere")];
        obj [("iso_3166_1"%string, str "AT"); ("name"%string, str "Austria")]].

(** A sort by name to run the code on [payload_countries]: a stable
    insertion sort on the code units of the names, which is how
    [localeCompare] orders names in unaccented letters with a capital
    first. *)
Fixpoint units_leb (a b : jsstring) : bool :=
  match a, b with
  | [], _ => true
  | _ :: _, [] => false
  | x :: a', y :: b' =>
      if (x <? y)%N then true
      else if (y <? x)%N then false
      else units_leb a' b'
  end.

Definition name_units (e : country) : jsstring :=
  match name e with
  | VStr s => s
  | _ => []
  end.

Fixpoint insert_by_name (e : country) (l : list country) : list country :=
  match l with
  | [] => [e]
  | x :: l' =>
      if units_leb (name_units e) (name_units x) then e :: l
      else x :: insert_by_name e l'
  end.

Definition sort_by_units (l : list country) : completion (list country) :=
  Normal (fold_right insert_by_name [] l).

(** A station by its identifier and address. *)
Definition station_at (id address : string) : station :=
  {| stationuuid := js id; url_resolved := None; url := Some (js address);
     details := VNull |}.

End Props.
Import Props.

(** * Theorems *)

(** ** The regular expressions of the sanitizer *)

Section TagPattern.

Lemma star_opt_total (p q : char -> bool) (s : jsstring) :
  forall pos op cap, exists e,
    matchfrom [Star true p; Opt q] s pos op cap = Some (e, cap).
Proof.
  induction s as [|c s IH]; intros pos op cap.
  - exists pos. reflexivity.
  - cbn [matchfrom]. destruct (p c) eqn:Hp.
    + destruct (IH (S pos) op cap) as [e He].
      exists e. cbn [matchfrom] in He. rewrite He. reflexivity.
    + destruct (q c); [exists (S pos) | exists pos]; reflexivity.
Qed.

Lemma star_opt_advances (p q : char -> bool) (s : jsstring) :
  forall pos op cap e cap',
    matchfrom [Star true p; Opt q] s pos op cap = Some (e, cap') -> pos <= e.
Proof.
  induction s as [|c s IH]; intros pos op cap e cap'.
  - cbn. intros [= <- _]. lia.
  - cbn [matchfrom]. destruct (p c) eqn:Hp.
    + destruct (star_opt_total p q s (S pos) op cap) as [e1 He1].
      pose proof (IH _ _ _ _ _ He1) as Hle.
      cbn [matchfrom] in He1. rewrite He1. cbn. intros [= <- _]. lia.
    + destruct (q c); cbn; intros [= <- _]; lia.
Qed.

(** At a [<] the tag pattern always matches, and takes at least the [<]. *)
Lemma tag_matches_at_lt (s : jsstring) :
  exists n cap, matchfrom tag_re (ch "<" :: s) 0 0 None = Some (S n, cap).
Proof.
  unfold tag_re. cbn [matchfrom]. unfold lit at 1. rewrite N.eqb_refl.
  destruct (star_opt_total (not_lit ">") (lit ">") s 1 0 None) as [e He].
  pose proof (star_opt_advances _ _ _ _ _ _ He) as Hle.
  destruct e as [|n]; [lia|].
  exists n, None. exact He.
Qed.

(** Anywhere else it fails. *)
Lemma tag_fails_elsewhere (c : char) (s : jsstring) pos op cap :
  c <> ch "<" -> matchfrom tag_re (c :: s) pos op cap = None.
Proof.
  intros Hc. unfold tag_re. cbn [matchfrom]. unfold lit at 1.
  apply N.eqb_neq in Hc. rewrite Hc. reflexivity.
Qed.

Lemma replace_tags_no_lt (s : jsstring) :
  forall skip, no_lt (replace_all tag_re s skip).
Proof.
  induction s as [|c s IH]; intros skip; cbn [replace_all].
  - constructor.
  - destruct skip as [|k]; [|apply IH].
    destruct (N.eq_dec c (ch "<")) as [->|Hc].
    + destruct (tag_matches_at_lt s) as (n & cap & Hm). rewrite Hm. apply IH.
    + rewrite (tag_fails_elsewhere s 0 0 None Hc). constructor; [exact Hc | apply IH].
Qed.

Lemma replace_tags_id (s : jsstring) :
  no_lt s -> replace_all tag_re s 0 = s.
Proof.
  induction 1 as [|c s Hc _ IH]; cbn [replace_all]; [reflexivity|].
  rewrite (tag_fails_elsewhere s 0 0 None Hc). now rewrite IH.
Qed.

Lemma search_tags_none (s : jsstring) :
  no_lt s -> forall pos, search tag_re s pos = None.
Proof.
  induction 1 as [|c s Hc _ IH]; intros pos; cbn [search].
  - reflexivity.
  - rewrite (tag_fails_elsewhere s pos pos None Hc). apply IH.
Qed.

Lemma replace_controls_filter (s : jsstring) :
  replace_all control_re s 0 = filter (fun c => negb (control c)) s.
Proof.
  induction s as [|c s IH]; cbn [replace_all filter]; [reflexivity|].
  unfold control_re at 1. cbn [matchfrom].
  destruct (control c); cbn; now rewrite IH.
Qed.

End TagPattern.

(** ** [trim] *)

Section Trim.

Variable P : char -> Prop.

Lemma Forall_firstn_keeps (n : nat) (s : jsstring) :
  Forall P s -> Forall P (firstn n s).
Proof.
  intros H. revert n. induction H; intros [|n]; cbn; auto.
Qed.

Lemma Forall_filter_keeps (f : char -> bool) (s : jsstring) :
  Forall P s -> Forall P (filter f s).
Proof.
  induction 1; cbn; [constructor|]. destruct (f x); auto.
Qed.

Lemma Forall_trimStart (s : jsstring) : Forall P s -> Forall P (trimStart s).
Proof.
  induction 1 as [|c s Hc Hs IH]; cbn; [constructor|].
  destruct (is_space c); auto.
Qed.

Lemma Forall_trimEnd (s : jsstring) : Forall P s -> Forall P (trimEnd s).
Proof.
  intros H. unfold trimEnd. now apply Forall_rev, Forall_trimStart, Forall_rev.
Qed.

Lemma Forall_trim (s : jsstring) : Forall P s -> Forall P (trim s).
Proof.
  intros H. now apply Forall_trimEnd, Forall_trimStart.
Qed.

End Trim.

Lemma trimStart_length (s : jsstring) : List.length (trimStart s) <= List.length s.
Proof.
  induction s as [|c s IH]; cbn; [lia|]. destruct (is_space c); cbn; lia.
Qed.

Lemma trimEnd_length (s : jsstring) : List.length (trimEnd s) <= List.length s.
Proof.
  unfold trimEnd. rewrite length_rev.
  etransitivity; [apply trimStart_length|]. now rewrite length_rev.
Qed.

Lemma trimStart_app (a b : jsstring) :
  trimStart (a ++ b) =
  match trimStart a with
  | [] => trimStart b
  | _ :: _ => trimStart a ++ b
  end.
Proof.
  induction a as [|c a IH]; cbn; [reflexivity|].
  destruct (is_space c); [exact IH | reflexivity].
Qed.

(** [trimEnd] read from the front. *)
Lemma trimEnd_cons (c : char) (s : jsstring) :
  trimEnd (c :: s) =
  match trimEnd s with
  | [] => if is_space c then [] else [c]
  | _ :: _ => c :: trimEnd s
  end.
Proof.
  unfold trimEnd. cbn [rev]. rewrite trimStart_app.
  destruct (trimStart (rev s)) as [|d t] eqn:E.
  - cbn. destruct (is_space c); reflexivity.
  - rewrite rev_app_distr. cbn [rev app].
    destruct (rev t ++ [d]) eqn:E'; [|reflexivity].
    now destruct (rev t).
Qed.

Lemma trimStart_fix (s : jsstring) : starts_in_space s = false -> trimStart s = s.
Proof.
  destruct s as [|c s]; cbn; [reflexivity|]. now intros ->.
Qed.

Lemma trimEnd_fix (s : jsstring) : ends_in_space s = false -> trimEnd s = s.
Proof.
  unfold ends_in_space, trimEnd. intros H.
  rewrite (trimStart_fix (rev s)); [apply rev_involutive|].
  unfold starts_in_space. exact H.
Qed.

Lemma trimStart_starts (s : jsstring) : starts_in_space (trimStart s) = false.
Proof.
  induction s as [|c s IH]; cbn; [reflexivity|].
  destruct (is_space c) eqn:E; [exact IH | cbn; exact E].
Qed.

Lemma trimEnd_ends (s : jsstring) : ends_in_space (trimEnd s) = false.
Proof.
  unfold ends_in_space, trimEnd. rewrite rev_involutive.
  apply (trimStart_starts (rev s)).
Qed.

Lemma trimEnd_starts (s : jsstring) :
  starts_in_space s = false -> starts_in_space (trimEnd s) = false.
Proof.
  destruct s as [|c s]; [reflexivity|]. cbn [starts_in_space]. intros Hc.
  rewrite trimEnd_cons. destruct (trimEnd s); rewrite ?Hc; cbn; exact Hc.
Qed.

Lemma firstn_starts (n : nat) (s : jsstring) :
  starts_in_space s = false -> starts_in_space (firstn n s) = false.
Proof.
  destruct s as [|c s], n as [|n]; cbn; auto.
Qed.

Lemma trim_fix (s : jsstring) :
  starts_in_space s = false -> ends_in_space s = false -> trim s = s.
Proof.
  intros Hs He. unfold trim. rewrite (trimStart_fix _ Hs). now apply trimEnd_fix.
Qed.

(** ** The sanitizer *)

Lemma strip_no_lt (x : jsstring) : no_lt (strip x).
Proof.
  unfold strip. rewrite replace_controls_filter.
  apply Forall_filter_keeps, replace_tags_no_lt.
Qed.

Lemma strip_no_controls (x : jsstring) : no_controls (strip x).
Proof.
  unfold strip, no_controls. rewrite replace_controls_filter.
  apply Forall_forall. intros c Hc. apply filter_In in Hc as [_ Hc].
  now apply negb_true_iff in Hc.
Qed.

Lemma strip_id (x : jsstring) : no_lt x -> no_controls x -> strip x = x.
Proof.
  intros Hlt Hctl. unfold strip. rewrite (replace_tags_id Hlt), replace_controls_filter.
  induction Hctl as [|c s Hc _ IH]; cbn; [reflexivity|].
  rewrite Hc. cbn. f_equal. apply IH. now inversion Hlt.
Qed.

Lemma clean_no_lt (x : jsstring) : no_lt (clean x).
Proof.
  apply Forall_firstn_keeps, Forall_trim, strip_no_lt.
Qed.

Lemma clean_no_controls (x : jsstring) : no_controls (clean x).
Proof.
  apply Forall_firstn_keeps, Forall_trim, strip_no_controls.
Qed.

Lemma clean_length (x : jsstring) :
  List.length (clean x) = Nat.min 100 (List.length (trim (strip x))).
Proof.
  apply length_firstn.
Qed.

Lemma clean_Metadata (x : jsstring) : Metadata (clean x).
Proof.
  repeat split.
  - rewrite clean_length. lia.
  - apply search_tags_none, clean_no_lt.
  - apply clean_no_controls.
Qed.

Lemma clean_starts (x : jsstring) : starts_in_space (clean x) = false.
Proof.
  apply firstn_starts, trimEnd_starts, trimStart_starts.
Qed.

(** Cleaning a cleaned text only trims its end again. *)
Lemma clean_clean (x : jsstring) : clean (clean x) = trimEnd (clean x).
Proof.
  unfold clean at 1. cbv zeta.
  rewrite (strip_id (clean_no_lt x) (clean_no_controls x)).
  unfold trim. rewrite (trimStart_fix _ (clean_starts x)).
  apply firstn_all2. etransitivity; [apply trimEnd_length|].
  rewrite clean_length. lia.
Qed.

Lemma cleanMetadata_string (x : jsstring) : cleanMetadata (VStr x) = Normal (clean x).
Proof.
  destruct x; reflexivity.
Qed.

Lemma cleanMetadata_Metadata (text : value) (out : jsstring) :
  cleanMetadata text = Normal out -> Metadata out.
Proof.
  unfold cleanMetadata. destruct (negb (truthy text)).
  - intros [= <-]. apply (clean_Metadata []).
  - destruct text; try discriminate. intros [= <-]. apply clean_Metadata.
Qed.

(** C6: the output of [cleanMetadata] satisfies the Metadata invariant.  On
    every string and on an absent input the sanitizer returns a string of at
    most 100 code units in which the tag pattern matches nowhere (there is no
    [<] at all) and which holds no control character of the ranges
    [00-1F] and [7F-9F]; whatever else it is given, an output, if there is
    one, satisfies the invariant as well.  An absent or empty input gives the
    empty string. *)
Theorem cleanMetadata_invariant :
  (forall x : jsstring,
      exists out, cleanMetadata (VStr x) = Normal out /\ Metadata out /\ no_lt out) /\
  (forall (text : value) (out : jsstring),
      cleanMetadata text = Normal out -> Metadata out) /\
  cleanMetadata VUndefined = Normal [] /\
  cleanMetadata VNull = Normal [] /\
  cleanMetadata (VStr []) = Normal [].
Proof.
  split; [|split; [exact cleanMetadata_Metadata | repeat split]].
  intros x. exists (clean x). split; [apply cleanMetadata_string|].
  split; [apply clean_Metadata | apply clean_no_lt].
Qed.

Lemma cleanMetadata_invariant_witness : Metadata (js "Song Name").
Proof.
  apply (proj1 (proj2 cleanMetadata_invariant) (VStr (js "<b>Song</b> Name"))).
  vm_compute. reflexivity.
Defined.

(** C3, as stated, fails: a text of 99 letters, a space and one more letter
    is cut to 100 code units that end in the space, and the second pass
    trims that space away. *)
Lemma clean_not_idempotent :
  clean_twice (repeat (ch "a") 99 ++ js " b")
  <> cleanMetadata (VStr (repeat (ch "a") 99 ++ js " b")).
Proof.
  intros H.
  apply (f_equal (fun c => match c with Normal s => List.length s | _ => 0 end)) in H.
  vm_compute in H. discriminate H.
Qed.

(** C3, amended: sanitizing twice gives the sanitized text with the white
    space at its end trimmed.  So the two agree whenever the sanitized text
    does not end in white space, and in particular whenever the stripped and
    trimmed text fits in 100 code units. *)
Theorem clean_twice_trims (x : jsstring) :
  clean_twice x = Normal (trimEnd (clean x)) /\
  (ends_in_space (clean x) = false -> clean_twice x = cleanMetadata (VStr x)) /\
  (List.length (trim (strip x)) <= 100 -> clean_twice x = cleanMetadata (VStr x)).
Proof.
  assert (H : clean_twice x = Normal (trimEnd (clean x))).
  { unfold clean_twice. rewrite cleanMetadata_string. cbn [cbind].
    rewrite cleanMetadata_string. now rewrite clean_clean. }
  split; [exact H|]. rewrite H, cleanMetadata_string. split.
  - intros He. now rewrite (trimEnd_fix _ He).
  - intros Hlen. rewrite trimEnd_fix; [reflexivity|].
    unfold clean. cbv zeta. rewrite (firstn_all2 _ Hlen).
    apply trimEnd_ends.
Qed.

Lemma clean_twice_trims_witness :
  clean_twice (js " <i>Song</i> ") = cleanMetadata (VStr (js " <i>Song</i> ")).
Proof.
  apply (proj1 (proj2 (clean_twice_trims (js " <i>Song</i> ")))).
  vm_compute. reflexivity.
Defined.

(** C7, as stated, fails: 250 spaces are a 250-character input and the
    output is empty. *)
Lemma clean_250_spaces :
  List.length (repeat (ch " ") 250) = 250 /\
  cleanMetadata (VStr (repeat (ch " ") 250)) = Normal [].
Proof.
  split; vm_compute; reflexivity.
Qed.

(** C7, amended: for a 250-character input the output has [min 100 k] code
    units, where [k] is what the stripping of tags and control characters and
    the trimming leave; it has exactly 100 if and only if [k] is at least
    100.  That is the case when the input has no [<], no control character
    and no white space at either end: the output is then the first 100 code
    units of the input. *)
Theorem clean_250 (x : jsstring) :
  List.length x = 250 ->
  exists out,
    cleanMetadata (VStr x) = Normal out /\
    List.length out = Nat.min 100 (List.length (trim (strip x))) /\
    (List.length out = 100 <-> 100 <= List.length (trim (strip x))) /\
    (no_lt x -> no_controls x ->
     starts_in_space x = false -> ends_in_space x = false ->
     out = firstn 100 x /\ List.length out = 100).
Proof.
  intros Hlen. exists (clean x). split; [apply cleanMetadata_string|].
  split; [apply clean_length|]. split; [rewrite clean_length; lia|].
  intros Hlt Hctl Hs He. unfold clean. cbv zeta.
  rewrite (strip_id Hlt Hctl), (trim_fix _ Hs He).
  split; [reflexivity|]. rewrite length_firstn. lia.
Qed.

Lemma clean_250_witness :
  exists out,
    cleanMetadata (VStr (repeat (ch "a") 250)) = Normal out /\
    out = firstn 100 (repeat (ch "a") 250) /\ List.length out = 100.
Proof.
  destruct (clean_250 (repeat (ch "a") 250) eq_refl) as (out & H1 & _ & _ & H4).
  exists out. split; [exact H1|].
  apply H4; try reflexivity;
    apply Forall_forall; intros c Hc; apply repeat_spec in Hc; subst c;
    [intros H; discriminate H | reflexivity].
Defined.

(** ** The probes *)

Section ProbeRuns.

Variable net : network.

(** A probe issues one request and settles with a value, whatever the
    network answers. *)
Lemma fetchShoutcastV1_run (baseUrl : jsstring) (log : list jsstring) :
  fetchShoutcastV1 net baseUrl log =
  (Fulfill (probe_value fetchShoutcastV1 (net (List.length log) (endpoint baseUrl "/7.html"))),
   log ++ [endpoint baseUrl "/7.html"]).
Proof.
  unfold fetchShoutcastV1, probe_value, run, try_catch, bind, fetch, text, lift, ret, always.
  fold (endpoint baseUrl "/7.html").
  destruct (net (List.length log) (endpoint baseUrl "/7.html")) as [|r]; cbn [fst]; [reflexivity|].
  destruct (ok r); cbn [negb fst]; [|reflexivity].
  destruct (body_text r) as [t|]; cbn [fst]; [|reflexivity].
  destruct (String_match shoutcast_re t) as [m|]; cbn [fst]; [|reflexivity].
  destruct (cleanMetadata (group m)); reflexivity.
Qed.

Lemma fetchIcecastRaw_run (baseUrl : jsstring) (log : list jsstring) :
  fetchIcecastRaw net baseUrl log =
  (Fulfill (probe_value fetchIcecastRaw (net (List.length log) (endpoint baseUrl "/status.xsl"))),
   log ++ [endpoint baseUrl "/status.xsl"]).
Proof.
  unfold fetchIcecastRaw, probe_value, run, try_catch, bind, fetch, text, lift, ret, always.
  fold (endpoint baseUrl "/status.xsl").
  destruct (net (List.length log) (endpoint baseUrl "/status.xsl")) as [|r]; cbn [fst]; [reflexivity|].
  destruct (ok r); cbn [negb fst]; [|reflexivity].
  destruct (body_text r) as [t|]; cbn [fst]; [|reflexivity].
  destruct (String_match icecast_re t) as [m|]; cbn [fst]; [|reflexivity].
  destruct (cleanMetadata (group m)); reflexivity.
Qed.

Lemma fetchIcecastJson_run (baseUrl : jsstring) (log : list jsstring) :
  fetchIcecastJson net baseUrl log =
  (Fulfill (probe_value fetchIcecastJson (net (List.length log) (endpoint baseUrl "/status-json.xsl"))),
   log ++ [endpoint baseUrl "/status-json.xsl"]).
Proof.
  unfold fetchIcecastJson, probe_value, run, try_catch, bind, fetch, json, lift, ret, always.
  fold (endpoint baseUrl "/status-json.xsl").
  destruct (net (List.length log) (endpoint baseUrl "/status-json.xsl")) as [|r]; cbn [fst]; [reflexivity|].
  destruct (ok r); cbn [negb fst]; [|reflexivity].
  destruct (body_json r) as [data|]; cbn [fst]; [|reflexivity].
  destruct (icecast_title data); reflexivity.
Qed.

Lemma fetchShoutcastV2_run (baseUrl : jsstring) (log : list jsstring) :
  fetchShoutcastV2 net baseUrl log =
  (Fulfill (probe_value fetchShoutcastV2 (net (List.length log) (endpoint baseUrl "/stats?json=1"))),
   log ++ [endpoint baseUrl "/stats?json=1"]).
Proof.
  unfold fetchShoutcastV2, probe_value, run, try_catch, bind, fetch, json, lift, ret, always.
  fold (endpoint baseUrl "/stats?json=1").
  destruct (net (List.length log) (endpoint baseUrl "/stats?json=1")) as [|r]; cbn [fst]; [reflexivity|].
  destruct (ok r); cbn [negb fst]; [|reflexivity].
  destruct (body_json r) as [data|]; cbn [fst]; [|reflexivity].
  destruct (shoutcast2_title data); reflexivity.
Qed.


End ProbeRuns.

(** What the value of a probe is, by the answer of the network. *)
Lemma probe_value_network_error probe path :
  In (probe, path) probes -> probe_value probe NetworkError = None.
Proof.
  intros [H|[H|[H|[H|[]]]]]; injection H as <- <-; reflexivity.
Qed.

Lemma probe_value_not_ok probe path (r : response) :
  In (probe, path) probes -> ok r = false -> probe_value probe (Response r) = None.
Proof.
  intros [H|[H|[H|[H|[]]]]] Hok; injection H as <- <-;
    unfold probe_value, run, fetchShoutcastV1, fetchShoutcastV2, fetchIcecastJson,
      fetchIcecastRaw, try_catch, bind, fetch, always;
    rewrite Hok; reflexivity.
Qed.

Lemma text_probe_value (r : response) :
  ok r = true ->
  probe_value fetchShoutcastV1 (Response r) =
    match body_text r with
    | Some t =>
        match String_match shoutcast_re t with
        | Some m => match cleanMetadata (group m) with Normal c => Some c | _ => None end
        | None => None
        end
    | None => None
    end
  /\
  probe_value fetchIcecastRaw (Response r) =
    match body_text r with
    | Some t =>
        match String_match icecast_re t with
        | Some m => match cleanMetadata (group m) with Normal c => Some c | _ => None end
        | None => None
        end
    | None => None
    end.
Proof.
  intros Hok.
  unfold probe_value, run, fetchShoutcastV1, fetchIcecastRaw, try_catch, bind, fetch,
    text, lift, ret, always.
  rewrite Hok. cbn [negb].
  destruct (body_text r) as [t|]; cbn [fst]; [|split; reflexivity].
  split.
  - destruct (String_match shoutcast_re t) as [m|]; cbn [fst]; [|reflexivity].
    destruct (cleanMetadata (group m)); reflexivity.
  - destruct (String_match icecast_re t) as [m|]; cbn [fst]; [|reflexivity].
    destruct (cleanMetadata (group m)); reflexivity.
Qed.

Lemma json_probe_value (r : response) :
  ok r = true ->
  probe_value fetchIcecastJson (Response r) =
    match body_json r with
    | Some data => match icecast_title data with Normal v => v | _ => None end
    | None => None
    end
  /\
  probe_value fetchShoutcastV2 (Response r) =
    match body_json r with
    | Some data => match shoutcast2_title data with Normal v => v | _ => None end
    | None => None
    end.
Proof.
  intros Hok.
  unfold probe_value, run, fetchShoutcastV2, fetchIcecastJson, try_catch, bind, fetch,
    json, lift, ret, always.
  rewrite Hok. cbn [negb].
  destruct (body_json r) as [data|]; cbn [fst]; [|split; reflexivity].
  split.
  - destruct (icecast_title data); reflexivity.
  - destruct (shoutcast2_title data); reflexivity.
Qed.

(** ** [Promise.allSettled] *)

Section AllSettled.

Context {A : Type}.

Lemma update_length (i : nat) (x : A) (l : list A) :
  List.length (update i x l) = List.length l.
Proof.
  revert i. induction l as [|h t IH]; intros [|i]; cbn; auto.
Qed.

Lemma nth_error_update (i j : nat) (x : A) (l : list A) :
  nth_error (update i x l) j =
  if Nat.eqb i j
  then match nth_error l j with Some _ => Some x | None => None end
  else nth_error l j.
Proof.
  revert i j. induction l as [|h t IH]; intros [|i] [|j]; cbn; auto.
  - now destruct (Nat.eqb i j).
Qed.

Lemma all_some_map (l : list (option A)) (rs : list A) :
  all_some l = Some rs -> l = map Some rs.
Proof.
  revert rs. induction l as [|[a|] l IH]; cbn; intros rs H.
  - now injection H as <-.
  - destruct (all_some l) as [rs'|]; [|discriminate].
    injection H as <-. cbn. f_equal. now apply IH.
  - discriminate.
Qed.

Lemma all_some_of_map (rs : list A) : all_some (map Some rs) = Some rs.
Proof.
  induction rs as [|r rs IH]; cbn; [reflexivity|]. now rewrite IH.
Qed.

End AllSettled.

Section Slots.

Context {A : Type}.
Variable ps : list (promise A).

(** A slot holds the outcome of its promise once the promise has settled,
    and is untouched otherwise. *)
Lemma slots_after (sched : list nat) :
  forall (slots : list (option (settled A))) (i : nat),
    nth_error (fold_left (settle_one ps) sched slots) i =
    match nth_error slots i, nth_error ps i with
    | Some slot, Some p =>
        if existsb (Nat.eqb i) sched
        then match outcome p with Some r => Some (Some r) | None => Some slot end
        else Some slot
    | other, _ => other
    end.
Proof.
  induction sched as [|j sched IH]; intros slots i; cbn [fold_left existsb].
  - destruct (nth_error slots i), (nth_error ps i); reflexivity.
  - rewrite IH. unfold settle_one at 1.
    destruct (Nat.eqb i j) eqn:Eij; cbn [orb].
    + apply Nat.eqb_eq in Eij. subst j.
      destruct (nth_error ps i) as [[v| |]|] eqn:Ep; cbn [outcome];
        rewrite ?nth_error_update, ?Nat.eqb_refl;
        destruct (nth_error slots i); try reflexivity;
        destruct (existsb (Nat.eqb i) sched); reflexivity.
    + assert (Hji : Nat.eqb j i = false) by (rewrite Nat.eqb_sym; exact Eij).
      destruct (nth_error ps j) as [[v| |]|];
        rewrite ?nth_error_update, ?Hji; reflexivity.
Qed.

End Slots.

Lemma existsb_eqb_In (i : nat) (sched : list nat) :
  In i sched -> existsb (Nat.eqb i) sched = true.
Proof.
  intros H. apply existsb_exists. exists i. split; [exact H | apply Nat.eqb_refl].
Qed.

Lemma slots_of_fulfilled {A} (sched : list nat) (vs : list A) (i : nat) :
  nth_error (fold_left (settle_one (map (@Fulfill A) vs)) sched
               (repeat None (List.length (map (@Fulfill A) vs)))) i =
  match nth_error vs i with
  | Some v => if existsb (Nat.eqb i) sched then Some (Some (Fulfilled v)) else Some None
  | None => None
  end.
Proof.
  rewrite slots_after, nth_error_map, length_map.
  destruct (nth_error vs i) as [v|] eqn:Ev; cbn [option_map].
  - rewrite nth_error_repeat; [reflexivity|].
    apply nth_error_Some. rewrite Ev. discriminate.
  - apply nth_error_None in Ev.
    replace (nth_error (repeat None (List.length vs)) i) with (@None (option (settled A)));
      [reflexivity|].
    symmetry. apply nth_error_None. now rewrite repeat_length.
Qed.

(** With every promise fulfilled, [Promise.allSettled] either gives their
    values in the order of the array or is still waiting. *)
Lemma allSettled_fulfilled {A} (sched : list nat) (vs : list A) :
  Promise_allSettled sched (map (@Fulfill A) vs) = Fulfill (map (@Fulfilled A) vs)
  \/ Promise_allSettled sched (map (@Fulfill A) vs) = Pending.
Proof.
  unfold Promise_allSettled.
  destruct (all_some _) as [rs|] eqn:E; [left | now right].
  f_equal. apply all_some_map in E.
  apply nth_error_ext. intros i.
  apply (f_equal (fun l => nth_error l i)) in E.
  rewrite slots_of_fulfilled in E. rewrite !nth_error_map in E |- *.
  destruct (nth_error vs i) as [v|]; cbn [option_map].
  - destruct (existsb (Nat.eqb i) sched), (nth_error rs i); cbn in E; congruence.
  - destruct (nth_error rs i); cbn in E; congruence.
Qed.

(** Once all of them have settled, in whatever order, it gives the values in
    the order of the array. *)
Lemma allSettled_complete {A} (sched : list nat) (vs : list A) :
  (forall i, i < List.length vs -> In i sched) ->
  Promise_allSettled sched (map (@Fulfill A) vs) = Fulfill (map (@Fulfilled A) vs).
Proof.
  intros Hall. unfold Promise_allSettled.
  replace (fold_left _ sched _) with (map Some (map (@Fulfilled A) vs)).
  - now rewrite all_some_of_map.
  - apply nth_error_ext. intros i.
    rewrite slots_of_fulfilled, !nth_error_map.
    destruct (nth_error vs i) as [v|] eqn:Ev; cbn [option_map]; [|reflexivity].
    rewrite existsb_eqb_In; [reflexivity|].
    apply Hall, nth_error_Some. rewrite Ev. discriminate.
Qed.

(** Until all of them have settled, it is pending. *)
Lemma allSettled_waits {A} (sched : list nat) (vs : list A) (i : nat) :
  i < List.length vs -> ~ In i sched ->
  Promise_allSettled sched (map (@Fulfill A) vs) = Pending.
Proof.
  intros Hi Hout. unfold Promise_allSettled.
  destruct (all_some _) as [rs|] eqn:E; [exfalso | reflexivity].
  apply all_some_map in E.
  apply (f_equal (fun l => nth_error l i)) in E.
  rewrite slots_of_fulfilled, nth_error_map in E.
  destruct (nth_error vs i) as [v|] eqn:Ev.
  - destruct (existsb (Nat.eqb i) sched) eqn:Ex.
    + apply existsb_exists in Ex as (j & Hj & Hij).
      apply Nat.eqb_eq in Hij. now subst j.
    + destruct (nth_error rs i); discriminate E.
  - apply nth_error_None in Ev. lia.
Qed.

(** ** The orchestrator *)

(** [streamUrl.split('?')[0]] is the address up to its first question
    mark. *)
Lemma before_query_prefix (streamUrl : jsstring) :
  ~ In (ch "?") (before_query streamUrl) /\
  (streamUrl = before_query streamUrl
   \/ exists query, streamUrl = before_query streamUrl ++ ch "?" :: query).
Proof.
  unfold before_query.
  induction streamUrl as [|c s [IH1 IH2]]; cbn [split hd].
  - split; [intros [] | now left].
  - destruct (N.eqb c (ch "?")) eqn:Ec.
    + apply N.eqb_eq in Ec. subst c. cbn [hd]. split; [intros [] | right; now exists s].
    + apply N.eqb_neq in Ec.
      destruct (split (ch "?") s) as [|p ps] eqn:Es; cbn [hd] in *.
      * split; [intros [H|[]]; congruence|].
        destruct IH2 as [-> | (q & ->)]; [now left | right; now exists q].
      * split; [intros [H|H]; [congruence | now apply IH1]|].
        destruct IH2 as [H | (q & H)]; [left | right; exists q]; cbn; now f_equal.
Qed.

Lemma first_content_filter (vs : list (option jsstring)) :
  hd None (map value_of (filter has_content (map (@Fulfilled _) vs))) = first_content vs.
Proof.
  induction vs as [|[[|c s]|] vs IH]; cbn; auto.
Qed.

Lemma first_content_cases (vs : list (option jsstring)) :
  first_content vs = None
  \/ exists c s, first_content vs = Some (c :: s) /\ In (Some (c :: s)) vs.
Proof.
  induction vs as [|[[|c s]|] vs IH]; cbn; auto.
  - destruct IH as [IH|(c & s & IH & Hin)]; [now left | right; eauto].
  - right. eauto.
  - destruct IH as [IH|(c & s & IH & Hin)]; [now left | right; eauto].
Qed.

Section Orchestrator.

Variable net : network.
Variable new_URL : jsstring -> option URL.

(** A call on a non-empty address issues the seven requests and hands the
    seven promises, all fulfilled, to [Promise.allSettled]. *)
Lemma fetchLiveMetadata_with_run allSettled (c : char) (u : jsstring) :
  let base := getBaseUrl new_URL (c :: u) in
  let raw := before_query (c :: u) in
  run (fetchLiveMetadata_with net new_URL allSettled (Some (c :: u))) =
  (match allSettled (map (@Fulfill _) (probe_values net base raw)) with
   | Fulfill results => Fulfill (hd None (map value_of (filter has_content results)))
   | Reject => Fulfill None
   | Pending => Pending
   end, requests base raw).
Proof.
  intros base raw. unfold run, fetchLiveMetadata_with. fold base raw.
  unfold bind, async.
  rewrite fetchShoutcastV1_run. cbv beta iota.
  rewrite fetchShoutcastV2_run. cbv beta iota.
  rewrite fetchIcecastJson_run. cbv beta iota.
  rewrite fetchIcecastRaw_run. cbv beta iota.
  rewrite fetchShoutcastV1_run. cbv beta iota.
  rewrite fetchIcecastJson_run. cbv beta iota.
  rewrite fetchIcecastRaw_run. cbv beta iota.
  unfold try_catch, await, ret, probe_values, requests.
  cbn [app List.length map].
  destruct (allSettled _); reflexivity.
Qed.

End Orchestrator.

(** What [first_titled] and the payload readers can return. *)
Lemma first_titled_sanitized (sources : list value) (v : jsstring) :
  first_titled sources = Normal (Some v) -> exists text, cleanMetadata text = Normal v.
Proof.
  induction sources as [|source rest IH]; cbn [first_titled]; [discriminate|].
  destruct (get source (js "title")) as [title|]; cbn [cbind]; [|discriminate].
  destruct (truthy title); [|exact IH].
  destruct (cleanMetadata title) as [c|] eqn:E; cbn [cbind]; [|discriminate].
  intros [= <-]. now exists title.
Qed.

Lemma icecast_title_sanitized (data : value) (v : jsstring) :
  icecast_title data = Normal (Some v) -> exists text, cleanMetadata text = Normal v.
Proof.
  unfold icecast_title.
  destruct (truthy data); [|discriminate].
  destruct (get data (js "icestats")) as [icestats|]; cbn [cbind]; [|discriminate].
  destruct (truthy icestats); [|discriminate].
  destruct (get icestats (js "source")) as [source|]; cbn [cbind]; [|discriminate].
  destruct (truthy source); [|discriminate].
  apply first_titled_sanitized.
Qed.

Lemma shoutcast2_title_sanitized (data : value) (v : jsstring) :
  shoutcast2_title data = Normal (Some v) -> exists text, cleanMetadata text = Normal v.
Proof.
  unfold shoutcast2_title.
  destruct (truthy data); [|discriminate].
  destruct (get data (js "songtitle")) as [songtitle|]; cbn [cbind]; [|discriminate].
  destruct (truthy songtitle).
  - destruct (cleanMetadata songtitle) eqn:E; cbn [cbind]; [|discriminate].
    intros [= <-]. now exists songtitle.
  - destruct (get data (js "streams")) as [streams|]; cbn [cbind]; [|discriminate].
    destruct (truthy streams); [|discriminate].
    destruct (get0 streams) as [first|]; cbn [cbind]; [|discriminate].
    destruct (truthy first); [|discriminate].
    destruct (get first (js "songtitle")) as [songtitle0|]; cbn [cbind]; [|discriminate].
    destruct (truthy songtitle0); [|discriminate].
    destruct (cleanMetadata songtitle0) eqn:E; cbn [cbind]; [|discriminate].
    intros [= <-]. now exists songtitle0.
Qed.

Lemma probe_value_sanitized probe path (a : fetch_result) (v : jsstring) :
  In (probe, path) probes -> probe_value probe a = Some v ->
  exists text, cleanMetadata text = Normal v.
Proof.
  intros Hin. destruct a as [|r].
  { now rewrite (probe_value_network_error Hin). }
  destruct (ok r) eqn:Hok.
  2:{ now rewrite (probe_value_not_ok _ Hin Hok). }
  destruct (text_probe_value r Hok) as [H1 H4].
  destruct (json_probe_value r Hok) as [H3 H2].
  destruct Hin as [H|[H|[H|[H|[]]]]]; injection H as <- <-.
  - rewrite H1. destruct (body_text r) as [t|]; [|discriminate].
    destruct (String_match shoutcast_re t) as [m|]; [|discriminate].
    destruct (cleanMetadata (group m)) eqn:E; [|discriminate].
    intros [= <-]. now exists (group m).
  - rewrite H2. destruct (body_json r) as [data|]; [|discriminate].
    destruct (shoutcast2_title data) eqn:E; [|discriminate].
    intros ->. now apply shoutcast2_title_sanitized with data.
  - rewrite H3. destruct (body_json r) as [data|]; [|discriminate].
    destruct (icecast_title data) eqn:E; [|discriminate].
    intros ->. now apply icecast_title_sanitized with data.
  - rewrite H4. destruct (body_text r) as [t|]; [|discriminate].
    destruct (String_match icecast_re t) as [m|]; [|discriminate].
    destruct (cleanMetadata (group m)) eqn:E; [|discriminate].
    intros [= <-]. now exists (group m).
Qed.

Lemma probe_values_sanitized (net : network) (base raw v : jsstring) :
  In (Some v) (probe_values net base raw) ->
  exists text, cleanMetadata text = Normal v.
Proof.
  unfold probe_values.
  intros [H|[H|[H|[H|[H|[H|[H|[]]]]]]]];
    eapply probe_value_sanitized; try exact H; unfold probes; cbn; auto.
Qed.

Lemma content_not_empty (results : list (settled (option jsstring))) :
  hd None (map value_of (filter has_content results)) <> Some [].
Proof.
  induction results as [|[[[|c s]|]|] results IH]; cbn; try exact IH; discriminate.
Qed.

Lemma covers_of_permutation (sched : list nat) (n : nat) :
  Permutation sched (seq 0 n) -> forall i, i < n -> In i sched.
Proof.
  intros Hp i Hi. apply Permutation_sym in Hp.
  apply (Permutation_in _ Hp), in_seq. lia.
Qed.

(** Once the seven probes have settled, in whatever order, the call gives
    the first value with content. *)
Lemma fetchLiveMetadata_first_content_aux
    (net : network) (new_URL : jsstring -> option URL)
    (sched : list nat) (streamUrl : jsstring) :
  Permutation sched (seq 0 7) ->
  fst (run (fetchLiveMetadata net new_URL sched (Some streamUrl))) =
  match streamUrl with
  | [] => Fulfill None
  | _ :: _ =>
      Fulfill (first_content
                 (probe_values net (getBaseUrl new_URL streamUrl) (before_query streamUrl)))
  end
  /\ (streamUrl <> [] ->
      snd (run (fetchLiveMetadata net new_URL sched (Some streamUrl))) =
      requests (getBaseUrl new_URL streamUrl) (before_query streamUrl)).
Proof.
  intros Hperm. destruct streamUrl as [|c u]; [split; [reflexivity | congruence]|].
  unfold fetchLiveMetadata. rewrite fetchLiveMetadata_with_run.
  rewrite allSettled_complete.
  - rewrite first_content_filter. split; reflexivity.
  - intros i Hi. now apply (covers_of_permutation Hperm).
Qed.

(** C1, as stated, fails: the ShoutcastV1 probe produces a value, the empty
    string, which is not absent; the call returns the value of the
    IcecastJSON probe all the same. *)
Lemma empty_title_passed_over :
  fst (run (fetchShoutcastV1 net_empty_title
              (getBaseUrl URL_parse (js "http://host.com/live"))))
    = Fulfill (Some []) /\
  first_present (probe_values net_empty_title
                   (getBaseUrl URL_parse (js "http://host.com/live"))
                   (before_query (js "http://host.com/live")))
    = Some [] /\
  fst (run (fetchLiveMetadata net_empty_title URL_parse (seq 0 7)
              (Some (js "http://host.com/live"))))
    = Fulfill (Some (js "Song")).
Proof.
  repeat split; vm_compute; reflexivity.
Qed.

(** C1, amended: for a non-empty address the call issues exactly seven
    requests in a fixed order (ShoutcastV1, ShoutcastV2, IcecastJSON and
    IcecastRaw on the derived base, then ShoutcastV1, IcecastJSON and
    IcecastRaw on the address cut at its first question mark) and waits
    until all seven probes have settled: as long as one has not, the call is
    pending.  It then returns the first value, in that fixed order, that is
    a non-empty string; an absent value and the empty string are both passed
    over.  The order in which the probes settle plays no part. *)
Theorem fetchLiveMetadata_first_content
    (net : network) (new_URL : jsstring -> option URL)
    (sched : list nat) (streamUrl : jsstring) :
  streamUrl <> [] ->
  (Permutation sched (seq 0 7) ->
   run (fetchLiveMetadata net new_URL sched (Some streamUrl)) =
   (Fulfill (first_content
               (probe_values net (getBaseUrl new_URL streamUrl) (before_query streamUrl))),
    requests (getBaseUrl new_URL streamUrl) (before_query streamUrl))) /\
  (forall i, i < 7 -> ~ In i sched ->
   run (fetchLiveMetadata net new_URL sched (Some streamUrl)) =
   (Pending, requests (getBaseUrl new_URL streamUrl) (before_query streamUrl))).
Proof.
  intros Hne. split.
  - intros Hperm.
    destruct (@fetchLiveMetadata_first_content_aux net new_URL sched streamUrl Hperm)
      as [Hv Hl].
    specialize (Hl Hne). destruct streamUrl as [|c u]; [congruence|].
    destruct (run _) as [v l]. cbn [fst snd] in Hv, Hl. now subst.
  - intros i Hi Hout. destruct streamUrl as [|c u]; [congruence|].
    unfold fetchLiveMetadata. rewrite fetchLiveMetadata_with_run.
    rewrite (@allSettled_waits _ sched
               (probe_values net (getBaseUrl new_URL (c :: u)) (before_query (c :: u)))
               i Hi Hout).
    reflexivity.
Qed.

Lemma fetchLiveMetadata_first_content_witness :
  run (fetchLiveMetadata net_empty_title URL_parse [6; 5; 4; 3; 2; 1; 0]
         (Some (js "http://host.com/live?sid=1"))) =
  (Fulfill (Some (js "Song")),
   requests (js "http://host.com") (js "http://host.com/live")).
Proof.
  rewrite (proj1 (@fetchLiveMetadata_first_content net_empty_title URL_parse
                    [6; 5; 4; 3; 2; 1; 0] (js "http://host.com/live?sid=1")
                    ltac:(intros H; discriminate H))
             (Permutation_rev [6; 5; 4; 3; 2; 1; 0])).
  vm_compute. reflexivity.
Defined.

(** C9: on an empty, null or undefined address the call returns absent and
    the trace of requests is left as it was: no request is issued. *)
Theorem fetchLiveMetadata_no_address
    (net : network) (new_URL : jsstring -> option URL) allSettled
    (streamUrl : option jsstring) (log : list jsstring) :
  streamUrl = None \/ streamUrl = Some [] ->
  fetchLiveMetadata_with net new_URL allSettled streamUrl log = (Fulfill None, log)
  /\ forall sched, run (fetchLiveMetadata net new_URL sched streamUrl) = (Fulfill None, []).
Proof.
  intros [-> | ->]; split; reflexivity.
Qed.

Lemma fetchLiveMetadata_no_address_witness :
  run (fetchLiveMetadata net_empty_title URL_parse (seq 0 7) (Some (js ""))) =
  (Fulfill None, []).
Proof.
  apply (proj2 (@fetchLiveMetadata_no_address net_empty_title URL_parse
                  (Promise_allSettled (seq 0 7)) (Some (js "")) []
                  (or_intror eq_refl))).
Defined.

(** C10: the call never returns the empty string.  Whatever
    [Promise.allSettled] hands back, the filter keeps only fulfilled entries
    with a non-empty value; and with the probes of the source, a string that
    is returned is an output of [cleanMetadata]: non-empty and within the
    Metadata invariant. *)
Theorem fetchLiveMetadata_never_empty
    (net : network) (new_URL : jsstring -> option URL)
    (sched : list nat) (streamUrl : option jsstring) :
  (forall allSettled,
      fst (run (fetchLiveMetadata_with net new_URL allSettled streamUrl))
      <> Fulfill (Some [])) /\
  (forall v,
      fst (run (fetchLiveMetadata net new_URL sched streamUrl)) = Fulfill (Some v) ->
      v <> [] /\ Metadata v /\ exists text, cleanMetadata text = Normal v).
Proof.
  destruct streamUrl as [[|c u]|]; try (split; intros; cbn in *; discriminate).
  split.
  - intros allSettled. rewrite fetchLiveMetadata_with_run. cbn [fst].
    destruct (allSettled _) as [results| |]; try discriminate.
    intros [= H]. now apply content_not_empty in H.
  - intros v. unfold fetchLiveMetadata. rewrite fetchLiveMetadata_with_run. cbn [fst].
    pose proof (@probe_values_sanitized net (getBaseUrl new_URL (c :: u))
                  (before_query (c :: u))) as Hsan.
    generalize dependent (probe_values net (getBaseUrl new_URL (c :: u))
                            (before_query (c :: u))).
    intros vs Hsan.
    destruct (allSettled_fulfilled sched vs) as [-> | ->]; [|discriminate].
    rewrite first_content_filter. intros H.
    assert (H' : first_content vs = Some v) by congruence.
    destruct (first_content_cases vs) as [H0 | (c0 & s0 & H1 & Hin)]; [congruence|].
    rewrite H' in H1. injection H1 as ->.
    destruct (Hsan _ Hin) as [text Ht].
    split; [discriminate|]. split; [now apply cleanMetadata_Metadata with text|].
    now exists text.
Qed.

Lemma fetchLiveMetadata_never_empty_witness :
  js "Song" <> [] /\ Metadata (js "Song") /\
  exists text, cleanMetadata text = Normal (js "Song").
Proof.
  apply (proj2 (@fetchLiveMetadata_never_empty net_empty_title URL_parse (seq 0 7)
                  (Some (js "http://host.com/live")))).
  vm_compute. reflexivity.
Defined.

(** ** The IcecastJSON probe *)

Lemma icecast_title_sources (data source : value) :
  icestats_source data = Some source ->
  icecast_title data = first_titled (sources_of source).
Proof.
  unfold icestats_source, icecast_title.
  destruct (truthy data); [|discriminate].
  destruct (get data (js "icestats")) as [icestats|]; cbn [cbind]; [|discriminate].
  destruct (truthy icestats); [|discriminate].
  destruct (get icestats (js "source")) as [s|]; cbn [cbind]; [|discriminate].
  destruct (truthy s); [|discriminate].
  now intros [= ->].
Qed.

Lemma icecast_title_missing (data : value) :
  icestats_source data = None ->
  match icecast_title data with Normal v => v | Throw => None end = None.
Proof.
  unfold icestats_source, icecast_title.
  destruct (truthy data); [|reflexivity].
  destruct (get data (js "icestats")) as [icestats|]; cbn [cbind]; [|reflexivity].
  destruct (truthy icestats); [|reflexivity].
  destruct (get icestats (js "source")) as [s|]; cbn [cbind]; [|reflexivity].
  destruct (truthy s); [discriminate | reflexivity].
Qed.

Lemma first_titled_none (sources : list value) :
  Forall untitled sources -> first_titled sources = Normal None.
Proof.
  induction 1 as [|source rest (t & Ht & Hf) _ IH]; cbn [first_titled]; [reflexivity|].
  rewrite Ht. cbn [cbind]. now rewrite Hf.
Qed.

Lemma first_titled_found (pre post : list value) (s : value) (t : jsstring) :
  Forall untitled pre ->
  get s (js "title") = Normal (VStr t) -> t <> [] ->
  first_titled (pre ++ s :: post) = Normal (Some (clean t)).
Proof.
  intros Hpre Hs Ht.
  induction Hpre as [|source rest (t0 & Ht0 & Hf) _ IH]; cbn [app first_titled].
  - rewrite Hs. cbn [cbind]. destruct t as [|c t]; [congruence|]. reflexivity.
  - rewrite Ht0. cbn [cbind]. now rewrite Hf.
Qed.

(** C5, as stated, fails: in a list whose first entry is [null] and whose
    second entry alone has a title, reading [title] of the first entry
    throws and the probe returns absent; so it does when the first title met
    is a number, which [cleanMetadata] cannot take.  And what is returned
    for a title is the sanitized text, not the field as it stands. *)
Lemma null_source_hides_title :
  icestats_source payload_null_first
    = Some (VArr [VNull; obj [("title"%string, str "Song")]]) /\
  fst (run (fetchIcecastJson (always (json_ok payload_null_first)) (js "http://host.com")))
    = Fulfill None /\
  fst (run (fetchIcecastJson (always (json_ok payload_numeric_title)) (js "http://host.com")))
    = Fulfill None /\
  fst (run (fetchIcecastJson (always (json_ok payload_padded_title)) (js "http://host.com")))
    = Fulfill (Some (js "Song")) /\
  js "Song" <> js " Song ".
Proof.
  repeat split; try (vm_compute; reflexivity). intros H. discriminate H.
Qed.

(** C5, amended: the probe takes [icestats.source] as a list or as a single
    source and scans it in order.  When every source before the first one
    with a title can be read and has a falsy title (none there, or empty),
    and that first title is a non-empty string, the probe returns the title
    as [cleanMetadata] sanitizes it; a list where only the second entry has a
    title is such a case.  When no source has a title, or [icestats.source]
    is missing, it returns absent. *)
Theorem fetchIcecastJson_first_titled
    (net : network) (baseUrl : jsstring) (log : list jsstring)
    (r : response) (data : value) :
  net (List.length log) (endpoint baseUrl "/status-json.xsl") = Response r ->
  ok r = true ->
  body_json r = Some data ->
  (forall source pre s post t,
      icestats_source data = Some source ->
      sources_of source = pre ++ s :: post ->
      Forall untitled pre ->
      get s (js "title") = Normal (VStr t) -> t <> [] ->
      fst (fetchIcecastJson net baseUrl log) = Fulfill (Some (clean t))) /\
  (forall source,
      icestats_source data = Some source ->
      Forall untitled (sources_of source) ->
      fst (fetchIcecastJson net baseUrl log) = Fulfill None) /\
  (icestats_source data = None ->
   fst (fetchIcecastJson net baseUrl log) = Fulfill None).
Proof.
  intros Hnet Hok Hjson.
  rewrite fetchIcecastJson_run, Hnet. cbn [fst].
  rewrite (proj1 (json_probe_value r Hok)), Hjson.
  repeat split.
  - intros source pre s post t Hsrc Hsplit Hpre Hs Ht.
    rewrite (@icecast_title_sources data source Hsrc), Hsplit.
    now rewrite (@first_titled_found pre post s t Hpre Hs Ht).
  - intros source Hsrc Hall.
    now rewrite (@icecast_title_sources data source Hsrc), (@first_titled_none _ Hall).
  - intros Hnone. now rewrite (@icecast_title_missing data Hnone).
Qed.

Lemma fetchIcecastJson_first_titled_witness :
  fst (run (fetchIcecastJson (always (json_ok payload_second_titled)) (js "http://host.com")))
  = Fulfill (Some (js "Song")).
Proof.
  refine (proj1 (@fetchIcecastJson_first_titled
                   (always (json_ok payload_second_titled)) (js "http://host.com") []
                   _ payload_second_titled eq_refl eq_refl eq_refl)
            _ [obj [("listeners"%string, VNum (3 # 1))]]
            (obj [("title"%string, str "Song")]) [] (js "Song")
            eq_refl eq_refl _ eq_refl _).
  - constructor; [|constructor]. exists VUndefined. split; reflexivity.
  - intros H. discriminate H.
Defined.

(** ** The ShoutcastV1 probe *)

Section GreedyStar.

Variable R : regex.

Lemma star_nil pos op cap :
  matchfrom (Star true dot :: R) [] pos op cap = matchfrom R [] pos op cap.
Proof. reflexivity. Qed.

Lemma star_cons (c : char) (s : jsstring) pos op cap :
  matchfrom (Star true dot :: R) (c :: s) pos op cap =
  if dot c
  then or_else (matchfrom (Star true dot :: R) s (S pos) op cap)
               (matchfrom R (c :: s) pos op cap)
  else matchfrom R (c :: s) pos op cap.
Proof. reflexivity. Qed.

Lemma char_cons (p : char -> bool) (c : char) (s : jsstring) pos op cap :
  matchfrom (Char p :: R) (c :: s) pos op cap =
  if p c then matchfrom R s (S pos) op cap else None.
Proof. reflexivity. Qed.

(** A greedy star prefers the longest run: a match found further on is the
    match. *)
Lemma star_skip (a b : jsstring) op cap x :
  one_line a ->
  forall pos,
    matchfrom (Star true dot :: R) b (pos + List.length a) op cap = Some x ->
    matchfrom (Star true dot :: R) (a ++ b) pos op cap = Some x.
Proof.
  induction 1 as [|c a Hc _ IH]; intros pos Hb; cbn [app List.length] in *.
  - now rewrite Nat.add_0_r in Hb.
  - rewrite star_cons, Hc, IH; [reflexivity|].
    now rewrite <- Nat.add_succ_comm in Hb.
Qed.

(** It fails when what follows it fails after every run. *)
Lemma star_stop (s : jsstring) op cap :
  forall pos,
    (forall n, matchfrom R (skipn n s) (pos + n) op cap = None) ->
    matchfrom (Star true dot :: R) s pos op cap = None.
Proof.
  induction s as [|c s IH]; intros pos H.
  - rewrite star_nil. specialize (H 0). now rewrite Nat.add_0_r in H.
  - rewrite star_cons.
    assert (H0 : matchfrom R (c :: s) pos op cap = None).
    { specialize (H 0). now rewrite Nat.add_0_r in H. }
    rewrite H0, IH; [now destruct (dot c)|].
    intros n. specialize (H (S n)). cbn [skipn] in H.
    now rewrite Nat.add_succ_comm.
Qed.

End GreedyStar.

Lemma commas_app (a b : jsstring) : commas (a ++ b) = commas a + commas b.
Proof.
  unfold commas. now rewrite filter_app, length_app.
Qed.

Lemma commas_cons (c : char) (s : jsstring) :
  commas (c :: s) = (if N.eqb c (ch ",") then 1 else 0) + commas s.
Proof.
  unfold commas. cbn [filter]. now destruct (N.eqb c (ch ",")).
Qed.

Lemma commas_skipn (n : nat) (s : jsstring) : commas (skipn n s) <= commas s.
Proof.
  rewrite <- (firstn_skipn n s) at 2. rewrite commas_app. lia.
Qed.

(** The group alone takes the rest of the line. *)
Lemma group_takes_line (s : jsstring) :
  one_line s ->
  forall pos op cap,
    matchfrom (fields_then_group 0) s pos op cap
    = Some (pos + List.length s, Some (pos, pos + List.length s)).
Proof.
  intros Hs pos op cap. cbn [fields_then_group].
  change (matchfrom [GroupOpen; Star true dot; GroupClose] s pos op cap)
    with (matchfrom [Star true dot; GroupClose] s pos pos cap).
  generalize pos at 2 4 as start.
  revert pos. induction Hs as [|c s Hc _ IH]; intros pos start.
  - cbn. now rewrite Nat.add_0_r.
  - rewrite star_cons, Hc, IH. cbn [or_else List.length].
    now rewrite Nat.add_succ_comm.
Qed.

(** With fewer than [k] commas left, [k] blocks cannot match. *)
Lemma fields_need_commas (k : nat) :
  forall (s : jsstring) pos op cap,
    commas s < k -> matchfrom (fields_then_group k) s pos op cap = None.
Proof.
  induction k as [|k IH]; intros s pos op cap Hk; [lia|].
  cbn [fields_then_group]. apply star_stop. intros n.
  pose proof (commas_skipn n s) as Hle.
  destruct (skipn n s) as [|c s'] eqn:E; [reflexivity|].
  rewrite char_cons. unfold lit at 1.
  rewrite commas_cons in Hle.
  destruct (N.eqb c (ch ",")) eqn:Ec; [|reflexivity].
  apply IH. lia.
Qed.

Lemma cut_at_comma (m : nat) (pre : jsstring) :
  m < commas pre ->
  exists pre1 pre2, pre = pre1 ++ ch "," :: pre2 /\ commas pre2 = m.
Proof.
  induction pre as [|c pre IH]; intros Hm; [cbn in Hm; lia|].
  rewrite commas_cons in Hm.
  destruct (Nat.lt_ge_cases m (commas pre)) as [Hlt|Hge].
  - destruct (IH Hlt) as (p1 & p2 & -> & Hp2). now exists (c :: p1), p2.
  - destruct (N.eqb c (ch ",")) eqn:Ec; [|lia].
    apply N.eqb_eq in Ec. subst c. exists [], pre. split; [reflexivity | lia].
Qed.

(** On a line [pre,t] with [t] free of commas and at least [k - 1] commas in
    [pre], [k] blocks and the group match the whole line, and the group is
    [t]: the text after the last comma. *)
Lemma fields_then_group_last (k : nat) :
  forall (pre t : jsstring) pos op cap,
    one_line pre -> one_line t -> commas t = 0 -> k <= commas pre ->
    matchfrom (fields_then_group (S k)) (pre ++ ch "," :: t) pos op cap
    = Some (pos + List.length pre + 1 + List.length t,
            Some (pos + List.length pre + 1, pos + List.length pre + 1 + List.length t)).
Proof.
  induction k as [|k IH]; intros pre t pos op cap Hpre Ht Hct Hk.
  - change (fields_then_group 1)
      with (Star true dot :: Char (lit ",") :: fields_then_group 0).
    apply star_skip; [exact Hpre|].
    rewrite star_cons. change (dot (ch ",")) with true. cbv iota.
    rewrite star_stop.
    + cbn [or_else]. rewrite char_cons. unfold lit at 1. rewrite N.eqb_refl.
      rewrite (group_takes_line Ht). repeat f_equal; lia.
    + intros n. pose proof (commas_skipn n t) as Hle.
      destruct (skipn n t) as [|c s'] eqn:E; [reflexivity|].
      rewrite char_cons. unfold lit at 1. rewrite commas_cons in Hle.
      destruct (N.eqb c (ch ",")); [lia | reflexivity].
  - destruct (@cut_at_comma k pre Hk) as (pre1 & pre2 & -> & Hp2).
    apply Forall_app in Hpre as [Hpre1 Hpre2]. apply Forall_inv_tail in Hpre2.
    rewrite <- app_assoc. cbn [app].
    change (fields_then_group (S (S k)))
      with (Star true dot :: Char (lit ",") :: fields_then_group (S k)).
    apply star_skip; [exact Hpre1|].
    rewrite star_cons. change (dot (ch ",")) with true. cbv iota.
    rewrite star_stop.
    + cbn [or_else]. rewrite char_cons. unfold lit at 1. rewrite N.eqb_refl.
      rewrite IH by (auto; lia).
      rewrite length_app. cbn [List.length].
      replace (S (pos + List.length pre1) + List.length pre2 + 1)
        with (pos + (List.length pre1 + S (List.length pre2)) + 1) by lia.
      reflexivity.
    + intros n. pose proof (commas_skipn n (pre2 ++ ch "," :: t)) as Hle.
      rewrite commas_app, commas_cons, N.eqb_refl, Hct, Hp2 in Hle.
      destruct (skipn n (pre2 ++ ch "," :: t)) as [|c s'] eqn:E; [reflexivity|].
      rewrite char_cons. unfold lit at 1. rewrite commas_cons in Hle.
      destruct (N.eqb c (ch ",")) eqn:Ec; [|reflexivity].
      apply fields_need_commas. lia.
Qed.

Lemma search_hit (r : regex) (s : jsstring) pos e cap :
  matchfrom r s pos pos None = Some (e, cap) -> search r s pos = Some (pos, e, cap).
Proof.
  intros H. destruct s; cbn [search]; now rewrite H.
Qed.

Lemma String_match_shoutcast (pre t : jsstring) :
  one_line pre -> one_line t -> commas t = 0 -> 5 <= commas pre ->
  String_match shoutcast_re (pre ++ ch "," :: t)
  = Some {| whole := pre ++ ch "," :: t; group1 := Some t |}.
Proof.
  intros Hpre Ht Hct Hk. unfold String_match.
  change shoutcast_re with (fields_then_group 6).
  rewrite (search_hit _ _ _ (@fields_then_group_last 5 pre t 0 0 None Hpre Ht Hct Hk)).
  cbn [option_map]. unfold substring. cbn [skipn Nat.add].
  f_equal. f_equal.
  - apply firstn_all2. rewrite length_app. cbn [List.length]. lia.
  - f_equal. rewrite skipn_app, skipn_all2 by lia.
    replace (List.length pre + 1 - List.length pre) with 1 by lia.
    cbn [skipn app]. apply firstn_all2. lia.
Qed.

(** The ShoutcastV1 probe on a one-line body: with at least six commas in
    it, the value is the sanitized text after the last comma.  That is the
    title when the title holds no comma, and the end of the title when it
    does. *)
Lemma fetchShoutcastV1_single_line
    (net : network) (baseUrl : jsstring) (log : list jsstring)
    (r : response) (pre t : jsstring) :
  net (List.length log) (endpoint baseUrl "/7.html") = Response r ->
  ok r = true ->
  body_text r = Some (pre ++ ch "," :: t) ->
  one_line pre -> one_line t -> commas t = 0 -> 5 <= commas pre ->
  fst (fetchShoutcastV1 net baseUrl log) = Fulfill (Some (clean t)).
Proof.
  intros Hnet Hok Hbody Hpre Ht Hct Hk.
  rewrite fetchShoutcastV1_run, Hnet. cbn [fst].
  rewrite (proj1 (text_probe_value r Hok)), Hbody.
  rewrite (String_match_shoutcast Hpre Ht Hct Hk).
  unfold group. cbn [group1]. now rewrite cleanMetadata_string.
Qed.

(** C4: on the body of the specification the probe returns
    [Artist - Title], and a body without six commas gives absent.  But the
    stars of the pattern are greedy and [.] matches a comma: when the title
    itself holds a comma, the group is the text after the last comma, not
    the text after the sixth. *)
Theorem fetchShoutcastV1_last_comma (baseUrl : jsstring) :
  fst (run (fetchShoutcastV1 (always (text_ok (js "1,1,100,100,1,128,Artist - Title")))
              baseUrl))
    = Fulfill (Some (js "Artist - Title")) /\
  fst (run (fetchShoutcastV1 (always (text_ok (js "1,1,100,100,1,128"))) baseUrl))
    = Fulfill None /\
  fst (run (fetchShoutcastV1
              (always (text_ok (js "1,1,100,100,1,128,Artist, The - Title"))) baseUrl))
    = Fulfill (Some (js "The - Title")).
Proof.
  repeat split; vm_compute; reflexivity.
Qed.

(** ** The base-URL deriver *)

(** Whatever the URL constructor is, a path that contains [stream] sends
    [getBaseUrl] to the origin, before the segments are looked at. *)
Lemma getBaseUrl_stream_path (new_URL : jsstring -> option URL)
    (streamUrl : jsstring) (url : URL) :
  new_URL streamUrl = Some url ->
  includes (js "stream") (toLowerCase (pathname url)) = true ->
  getBaseUrl new_URL streamUrl = protocol url ++ js "//" ++ host url.
Proof.
  intros Hurl Hinc. unfold getBaseUrl. rewrite Hurl, Hinc.
  now rewrite !orb_true_r.
Qed.

(** C2: three of the four examples hold, and a mount point is kept for a
    path such as [/9020/live]; but [/9020/stream] contains [stream], so the
    first test answers the origin and the mount point [/9020] is lost.  That
    does not hang on how the address is parsed: any URL object whose
    [pathname] is [/9020/stream] gives its origin. *)
Theorem getBaseUrl_examples :
  (forall (new_URL : jsstring -> option URL) (streamUrl : jsstring) (url : URL),
      new_URL streamUrl = Some url ->
      pathname url = js "/9020/stream" ->
      getBaseUrl new_URL streamUrl = protocol url ++ js "//" ++ host url) /\
  getBaseUrl URL_parse (js "http://host.com/9020/stream") = js "http://host.com" /\
  getBaseUrl URL_parse (js "http://host.com/") = js "http://host.com" /\
  getBaseUrl URL_parse (js "http://host.com/;") = js "http://host.com" /\
  getBaseUrl URL_parse (js "http://host.com/livestream") = js "http://host.com" /\
  getBaseUrl URL_parse (js "http://host.com/9020/live") = js "http://host.com/9020".
Proof.
  split.
  - intros new_URL streamUrl url Hurl Hpath.
    apply getBaseUrl_stream_path with (1 := Hurl). now rewrite Hpath.
  - repeat split; vm_compute; reflexivity.
Qed.

Lemma getBaseUrl_examples_witness :
  getBaseUrl URL_parse (js "http://host.com/9020/stream") = js "http://host.com".
Proof.
  apply (proj1 getBaseUrl_examples URL_parse (js "http://host.com/9020/stream")
           {| protocol := js "http:"; host := js "host.com";
              pathname := js "/9020/stream" |});
    reflexivity.
Defined.

(** ** Failures *)





(** * Further properties of the code *)

(** ** The sanitizer on tags *)

Lemma replace_all_skip (r : regex) (x y : jsstring) :
  replace_all r (x ++ y) (List.length x) = replace_all r y 0.
Proof.
  induction x as [|c x IH]; [reflexivity | exact IH].
Qed.

Lemma replace_tags_prefix (a s : jsstring) :
  no_lt a -> replace_all tag_re (a ++ s) 0 = a ++ replace_all tag_re s 0.
Proof.
  induction 1 as [|c a Hc _ IH]; cbn [app replace_all]; [reflexivity|].
  rewrite (tag_fails_elsewhere (a ++ s) 0 0 None Hc). now rewrite IH.
Qed.

(** After the [<], the pattern runs to the next [>] and takes it, or runs to
    the end of the text. *)
Lemma tag_body_length (t rest : jsstring) :
  ~ In (ch ">") t ->
  rest = [] \/ (exists b, rest = ch ">" :: b) ->
  forall pos op cap,
    matchfrom [Star true (not_lit ">"); Opt (lit ">")] (t ++ rest) pos op cap
    = Some (pos + List.length t + (match rest with [] => 0 | _ :: _ => 1 end), cap).
Proof.
  intros Ht Hrest. induction t as [|c t IH]; intros pos op cap; cbn [app List.length].
  - destruct Hrest as [-> | (b & ->)]; cbn; rewrite !Nat.add_0_r, ?Nat.add_1_r;
      reflexivity.
  - assert (Hc : not_lit ">" c = true).
    { unfold not_lit. apply negb_true_iff, N.eqb_neq. intros ->. apply Ht. now left. }
    assert (Ht' : ~ In (ch ">") t) by (intros H; apply Ht; now right).
    specialize (IH Ht' (S pos) op cap).
    cbn [matchfrom] in IH |- *. rewrite Hc, IH. cbn [or_else].
    replace (S pos + List.length t) with (pos + S (List.length t)) by lia.
    reflexivity.
Qed.

Lemma replace_closed_tag (t b : jsstring) :
  ~ In (ch ">") t ->
  replace_all tag_re (ch "<" :: t ++ ch ">" :: b) 0 = replace_all tag_re b 0.
Proof.
  intros Ht. cbn [replace_all]. unfold tag_re at 1.
  change (matchfrom [Char (lit "<"); Star true (not_lit ">"); Opt (lit ">")]
            (ch "<" :: t ++ ch ">" :: b) 0 0 None)
    with (matchfrom [Star true (not_lit ">"); Opt (lit ">")] (t ++ ch ">" :: b) 1 0 None).
  rewrite (@tag_body_length t (ch ">" :: b) Ht (or_intror (ex_intro _ b eq_refl))).
  cbn [Nat.add].
  replace (t ++ ch ">" :: b) with ((t ++ [ch ">"]) ++ b) by now rewrite <- app_assoc.
  replace (List.length t + 1) with (List.length (t ++ [ch ">"]))
    by (rewrite length_app; reflexivity).
  apply replace_all_skip.
Qed.

Lemma replace_open_tag (b : jsstring) :
  ~ In (ch ">") b -> replace_all tag_re (ch "<" :: b) 0 = [].
Proof.
  intros Hb. cbn [replace_all]. unfold tag_re at 1.
  change (matchfrom [Char (lit "<"); Star true (not_lit ">"); Opt (lit ">")]
            (ch "<" :: b) 0 0 None)
    with (matchfrom [Star true (not_lit ">"); Opt (lit ">")] b 1 0 None).
  rewrite <- (app_nil_r b) at 1.
  rewrite (@tag_body_length b [] Hb (or_introl eq_refl)).
  cbn [Nat.add]. rewrite Nat.add_0_r.
  rewrite <- (app_nil_r b) at 1. rewrite replace_all_skip. reflexivity.
Qed.

(** X1: a complete tag is removed and nothing else with it: for a text
    [a<t>b] with no [<] in [a] and no [>] in [t], sanitizing gives what
    sanitizing [ab] gives. *)
Theorem cleanMetadata_drops_tag (a t b : jsstring) :
  no_lt a -> ~ In (ch ">") t ->
  cleanMetadata (VStr (a ++ ch "<" :: t ++ ch ">" :: b)) = cleanMetadata (VStr (a ++ b)).
Proof.
  intros Ha Ht. rewrite !cleanMetadata_string. f_equal.
  unfold clean, strip. cbv zeta.
  rewrite !(@replace_tags_prefix a _ Ha). now rewrite (@replace_closed_tag t b Ht).
Qed.

Lemma cleanMetadata_drops_tag_witness :
  cleanMetadata (VStr (js "Song <b>Name</b>")) = cleanMetadata (VStr (js "Song Name</b>")).
Proof.
  apply (@cleanMetadata_drops_tag (js "Song ") (js "b") (js "Name</b>")).
  - repeat constructor; intros H; discriminate H.
  - intros [H|[]]. discriminate H.
Defined.

(** X2: a [<] that is never closed takes the rest of the text with it: for
    [a<b] with no [<] in [a] and no [>] in [b], sanitizing gives what
    sanitizing [a] alone gives. *)
Theorem cleanMetadata_open_tag (a b : jsstring) :
  no_lt a -> ~ In (ch ">") b ->
  cleanMetadata (VStr (a ++ ch "<" :: b)) = cleanMetadata (VStr a).
Proof.
  intros Ha Hb. rewrite !cleanMetadata_string. f_equal.
  unfold clean, strip. cbv zeta.
  rewrite (@replace_tags_prefix a _ Ha), (@replace_open_tag b Hb), app_nil_r.
  now rewrite (replace_tags_id Ha).
Qed.

Lemma cleanMetadata_open_tag_witness :
  cleanMetadata (VStr (js "I <3 U")) = cleanMetadata (VStr (js "I ")).
Proof.
  apply (@cleanMetadata_open_tag (js "I ") (js "3 U")).
  - repeat constructor; intros H; discriminate H.
  - intros [H|[H|[H|[]]]]; discriminate H.
Defined.

(** X3: the texts the sanitizer leaves as they are, are exactly those with
    no [<], no control character, no white space at either end and at most
    100 code units. *)
Theorem cleanMetadata_fixed_points (x : jsstring) :
  cleanMetadata (VStr x) = Normal x <->
  no_lt x /\ no_controls x /\ starts_in_space x = false /\ ends_in_space x = false
  /\ List.length x <= 100.
Proof.
  rewrite cleanMetadata_string. split.
  - intros H. injection H as H.
    assert (Hlt : no_lt x) by (rewrite <- H; apply clean_no_lt).
    assert (Hctl : no_controls x) by (rewrite <- H; apply clean_no_controls).
    assert (Hs : starts_in_space x = false) by (rewrite <- H; apply clean_starts).
    assert (Hlen : List.length x <= 100) by (rewrite <- H, clean_length; lia).
    repeat split; try assumption.
    unfold clean in H. cbv zeta in H. rewrite (strip_id Hlt Hctl) in H.
    pose proof (trimStart_length x) as H1.
    pose proof (trimEnd_length (trimStart x)) as H2.
    rewrite firstn_all2 in H by (unfold trim; lia).
    rewrite <- H. apply trimEnd_ends.
  - intros (Hlt & Hctl & Hs & He & Hlen). f_equal.
    unfold clean. cbv zeta.
    rewrite (strip_id Hlt Hctl), (trim_fix _ Hs He). now apply firstn_all2.
Qed.

Lemma cleanMetadata_fixed_points_witness :
  cleanMetadata (VStr (js "Artist - Title")) = Normal (js "Artist - Title").
Proof.
  apply (proj2 (cleanMetadata_fixed_points (js "Artist - Title"))).
  repeat split; try reflexivity.
  - repeat constructor; intros H; discriminate H.
  - repeat constructor.
  - cbn. lia.
Defined.

(** ** The base-URL deriver, in general *)

Lemma str_eqb_eq (a b : jsstring) : str_eqb a b = true <-> a = b.
Proof.
  revert b. induction a as [|x a IH]; intros [|y b]; cbn; split; try easy.
  - intros H. apply andb_true_iff in H as [Hx Hab].
    apply N.eqb_eq in Hx. apply IH in Hab. now subst.
  - intros [= -> ->]. rewrite N.eqb_refl. now apply IH.
Qed.

Lemma str_eqb_neq (a b : jsstring) : str_eqb a b = false <-> a <> b.
Proof.
  rewrite <- str_eqb_eq. now destruct (str_eqb a b).
Qed.

Section Split.

Variable sep : char.

Lemma split_pieces (s p : jsstring) : In p (split sep s) -> ~ In sep p.
Proof.
  revert p. induction s as [|c s IH]; intros p; cbn [split].
  - intros [<-|[]] [].
  - destruct (N.eqb c sep) eqn:Ec.
    + intros [<-|H]; [intros [] | now apply IH].
    + apply N.eqb_neq in Ec. destruct (split sep s) as [|q qs]; cbn [In].
      * intros [<-|[]] [H|[]]. congruence.
      * intros [<-|H].
        -- intros [H|H]; [congruence|]. apply (IH q); [now left | exact H].
        -- apply IH. now right.
Qed.

Lemma split_whole (a : jsstring) : ~ In sep a -> split sep a = [a].
Proof.
  induction a as [|c a IH]; intros Ha; cbn [split]; [reflexivity|].
  destruct (N.eqb c sep) eqn:Ec.
  - apply N.eqb_eq in Ec. exfalso. apply Ha. now left.
  - rewrite IH; [reflexivity|]. intros H. apply Ha. now right.
Qed.

Lemma split_at (a b : jsstring) :
  ~ In sep a -> split sep (a ++ sep :: b) = a :: split sep b.
Proof.
  induction a as [|c a IH]; intros Ha; cbn [split app].
  - now rewrite N.eqb_refl.
  - destruct (N.eqb c sep) eqn:Ec.
    + apply N.eqb_eq in Ec. exfalso. apply Ha. now left.
    + rewrite IH; [reflexivity|]. intros H. apply Ha. now right.
Qed.

End Split.

(** X4: when the address parses, the base keeps the scheme and the host: it
    is the origin, or the origin followed by one segment of the path, a
    segment that is not empty, has no slash in it and is not the [;]
    marker; the latter only when the path does not contain [stream]. *)
Theorem getBaseUrl_keeps_origin
    (new_URL : jsstring -> option URL) (streamUrl : jsstring) (url : URL) :
  new_URL streamUrl = Some url ->
  getBaseUrl new_URL streamUrl = origin url
  \/ exists seg,
       getBaseUrl new_URL streamUrl = origin url ++ js "/" ++ seg
       /\ seg <> [] /\ ~ In slash seg /\ seg <> js ";"
       /\ In seg (split slash (pathname url))
       /\ includes (js "stream") (toLowerCase (pathname url)) = false.
Proof.
  intros Hurl. unfold getBaseUrl, origin. rewrite Hurl.
  destruct (includes (js "stream") (toLowerCase (pathname url))) eqn:Hinc.
  { left. now rewrite !orb_true_r. }
  rewrite orb_false_r.
  destruct (str_eqb (pathname url) (js "/") || str_eqb (pathname url) (js "/;"));
    [now left|].
  match goal with
  | |- context [filter ?f (split ?c ?p)] =>
      destruct (filter f (split c p)) as [|seg segs] eqn:Ef
  end; [now left|].
  destruct (1 <? List.length (seg :: segs)); [|now left].
  right. exists seg. cbn [hd].
  assert (Hin : In seg (seg :: segs)) by now left.
  rewrite <- Ef in Hin. apply filter_In in Hin as [Hin Hp].
  split; [now rewrite <- !app_assoc|].
  destruct seg as [|c seg]; [discriminate|].
  repeat split; try discriminate; try assumption.
  - now apply split_pieces with (s := pathname url).
  - apply negb_true_iff in Hp. now apply str_eqb_neq.
Qed.

Lemma getBaseUrl_keeps_origin_witness :
  getBaseUrl URL_parse (js "https://Radio.Example.org:8000/jazz/hi.mp3?x=1")
  = js "https://radio.example.org:8000/jazz".
Proof.
  destruct (@getBaseUrl_keeps_origin URL_parse
              (js "https://Radio.Example.org:8000/jazz/hi.mp3?x=1")
              {| protocol := js "https:"; host := js "radio.example.org:8000";
                 pathname := js "/jazz/hi.mp3" |} eq_refl)
    as [H | (seg & H & _)].
  - vm_compute. reflexivity.
  - vm_compute. reflexivity.
Defined.

(** X5: a mount point is kept only when a second segment follows it: on a
    path [/seg1/seg2...] with two proper segments and no [stream] in it, the
    base is the origin followed by [/seg1]. *)
Theorem getBaseUrl_mount_point
    (new_URL : jsstring -> option URL) (streamUrl : jsstring) (url : URL)
    (seg1 seg2 tail : jsstring) :
  new_URL streamUrl = Some url ->
  pathname url = slash :: seg1 ++ slash :: seg2 ++ tail ->
  tail = [] \/ (exists more, tail = slash :: more) ->
  seg1 <> [] -> ~ In slash seg1 -> seg1 <> js ";" ->
  seg2 <> [] -> ~ In slash seg2 -> seg2 <> js ";" ->
  includes (js "stream") (toLowerCase (pathname url)) = false ->
  getBaseUrl new_URL streamUrl = origin url ++ js "/" ++ seg1.
Proof.
  intros Hurl Hpath Htail H1 Hs1 Hm1 H2 Hs2 Hm2 Hinc.
  unfold getBaseUrl, origin. rewrite Hurl, Hinc, orb_false_r.
  assert (Hroot : str_eqb (pathname url) (js "/") = false).
  { apply str_eqb_neq. rewrite Hpath. destruct seg1; [congruence | discriminate]. }
  assert (Hsemi : str_eqb (pathname url) (js "/;") = false).
  { apply str_eqb_neq. rewrite Hpath. destruct seg1 as [|c [|d s1]]; try congruence;
      cbn; try discriminate. }
  rewrite Hroot, Hsemi. cbn [orb].
  assert (Hsplit : exists rest,
             split (ch "/") (pathname url) = [] :: seg1 :: seg2 :: rest).
  { rewrite Hpath.
    change (slash :: seg1 ++ slash :: seg2 ++ tail)
      with ([] ++ slash :: seg1 ++ slash :: seg2 ++ tail).
    rewrite (@split_at slash [] _ (fun H => H)), (@split_at slash seg1 _ Hs1).
    destruct Htail as [-> | (more & ->)].
    - rewrite app_nil_r, (@split_whole slash seg2 Hs2). now exists [].
    - rewrite (@split_at slash seg2 _ Hs2). eauto. }
  destruct Hsplit as (rest & ->). cbn [filter].
  destruct seg1 as [|c1 s1]; [congruence|]. destruct seg2 as [|c2 s2]; [congruence|].
  apply str_eqb_neq in Hm1, Hm2. rewrite Hm1, Hm2. cbn [negb hd List.length Nat.ltb Nat.leb].
  now rewrite <- !app_assoc.
Qed.

Lemma getBaseUrl_mount_point_witness :
  getBaseUrl URL_parse (js "http://host.com/9020/live/") = js "http://host.com/9020".
Proof.
  apply (@getBaseUrl_mount_point URL_parse (js "http://host.com/9020/live/")
           {| protocol := js "http:"; host := js "host.com"; pathname := js "/9020/live/" |}
           (js "9020") (js "live") (js "/") eq_refl eq_refl);
    try (intros H; discriminate H); try reflexivity.
  - right. now exists [].
  - intros [H|[H|[H|[H|[]]]]]; discriminate H.
  - intros [H|[H|[H|[H|[]]]]]; discriminate H.
Defined.

(** X6: a path of one segment gives the server root, whatever the segment
    is, also when the segment is followed by a slash or by the [/;] marker:
    for [/9020], [/9020/] and [/9020/;] the mount point is not kept. *)
Theorem getBaseUrl_single_segment
    (new_URL : jsstring -> option URL) (streamUrl : jsstring) (url : URL)
    (seg tail : jsstring) :
  new_URL streamUrl = Some url ->
  pathname url = slash :: seg ++ tail ->
  ~ In slash seg ->
  tail = [] \/ tail = js "/" \/ tail = js "/;" ->
  getBaseUrl new_URL streamUrl = origin url.
Proof.
  intros Hurl Hpath Hs Htail. unfold getBaseUrl, origin. rewrite Hurl.
  destruct (_ || _ || _); [reflexivity|].
  assert (Hsplit : exists last,
             split (ch "/") (pathname url) = [] :: seg :: last
             /\ (last = [] \/ last = [[]] \/ last = [js ";"])).
  { rewrite Hpath.
    change (slash :: seg ++ tail) with ([] ++ slash :: seg ++ tail).
    rewrite (@split_at slash [] _ (fun H => H)).
    destruct Htail as [-> | [-> | ->]].
    - rewrite app_nil_r, (@split_whole slash seg Hs). exists []. auto.
    - change (js "/") with (slash :: []). rewrite (@split_at slash seg _ Hs).
      exists [[]]. auto.
    - change (js "/;") with (slash :: js ";"). rewrite (@split_at slash seg _ Hs).
      exists [js ";"]. auto. }
  destruct Hsplit as (last & -> & [-> | [-> | ->]]); cbn [filter];
    try change (negb (str_eqb (js ";") (js ";"))) with false; cbv iota;
    (destruct seg as [|c s];
     [reflexivity | destruct (negb (str_eqb (c :: s) (js ";"))); reflexivity]).
Qed.

Lemma getBaseUrl_single_segment_witness :
  getBaseUrl URL_parse (js "http://host.com/9020/;") = js "http://host.com".
Proof.
  apply (@getBaseUrl_single_segment URL_parse (js "http://host.com/9020/;")
           {| protocol := js "http:"; host := js "host.com"; pathname := js "/9020/;" |}
           (js "9020") (js "/;") eq_refl eq_refl).
  - intros [H|[H|[H|[H|[]]]]]; discriminate H.
  - auto.
Defined.

(** The pattern [/\/$/] matches at the last position, when a slash is
    there, and nowhere else. *)
Lemma search_final_slash (body : jsstring) :
  forall (c : char) (pos : nat),
    search [Char (lit "/"); AtEnd] (body ++ [c]) pos =
    if N.eqb c slash
    then Some (pos + List.length body, S (pos + List.length body), None)
    else None.
Proof.
  induction body as [|d body IH]; intros c pos.
  - cbn [app search matchfrom List.length]. unfold lit. fold slash.
    rewrite Nat.add_0_r. destruct (N.eqb c slash); reflexivity.
  - cbn [app search]. 
    assert (Hd : matchfrom [Char (lit "/"); AtEnd] (d :: body ++ [c]) pos pos None = None).
    { cbn [matchfrom]. destruct (lit "/" d); [|reflexivity]. now destruct body. }
    rewrite Hd, IH. cbn [List.length].
    rewrite <- !Nat.add_succ_comm. reflexivity.
Qed.

Lemma strip_final_slash (s : jsstring) :
  (forall body, s = body ++ [slash] ->
                replace_first [Char (lit "/"); AtEnd] s = body) /\
  ((forall body, s <> body ++ [slash]) ->
   replace_first [Char (lit "/"); AtEnd] s = s).
Proof.
  unfold replace_first. split.
  - intros body ->. rewrite search_final_slash, N.eqb_refl. cbn [Nat.add].
    rewrite firstn_app, firstn_all, Nat.sub_diag. cbn [firstn].
    rewrite skipn_all2 by (rewrite length_app; cbn; lia). now rewrite !app_nil_r.
  - intros Hs. destruct (rev s) as [|c r] eqn:Er.
    + apply (f_equal (@rev _)) in Er. rewrite rev_involutive in Er. now subst.
    + apply (f_equal (@rev _)) in Er. rewrite rev_involutive in Er. cbn in Er. subst s.
      rewrite search_final_slash.
      destruct (N.eqb c slash) eqn:Ec; [|reflexivity].
      apply N.eqb_eq in Ec. subst c. now destruct (Hs (rev r)).
Qed.

(** X7: when the address does not parse, the base is the address cut at its
    first question mark, less one final slash if there is one.  It holds no
    question mark and is a prefix of the address. *)
Theorem getBaseUrl_unparsed (new_URL : jsstring -> option URL) (streamUrl : jsstring) :
  new_URL streamUrl = None ->
  (forall body, before_query streamUrl = body ++ [slash] ->
                getBaseUrl new_URL streamUrl = body) /\
  ((forall body, before_query streamUrl <> body ++ [slash]) ->
   getBaseUrl new_URL streamUrl = before_query streamUrl) /\
  ~ In (ch "?") (getBaseUrl new_URL streamUrl) /\
  exists rest, streamUrl = getBaseUrl new_URL streamUrl ++ rest.
Proof.
  intros Hurl. unfold getBaseUrl. rewrite Hurl.
  destruct (strip_final_slash (before_query streamUrl)) as [Hcut Hkeep].
  split; [exact Hcut|]. split; [exact Hkeep|].
  destruct (before_query_prefix streamUrl) as [Hq Hpre].
  assert (Hshape : exists tail,
             before_query streamUrl
             = replace_first [Char (lit "/"); AtEnd] (before_query streamUrl) ++ tail).
  { destruct (rev (before_query streamUrl)) as [|c r] eqn:Er.
    - apply (f_equal (@rev _)) in Er. rewrite rev_involutive in Er. cbn in Er.
      rewrite Er. now exists [].
    - apply (f_equal (@rev _)) in Er. rewrite rev_involutive in Er. cbn in Er.
      destruct (N.eq_dec c slash) as [->|Hc].
      + rewrite (Hcut _ Er). now exists [slash].
      + rewrite Hkeep; [exists []; now rewrite app_nil_r|].
        intros body Hb. rewrite Er in Hb. apply app_inj_tail in Hb as [_ Hb].
        contradiction. }
  destruct Hshape as (tail & Htail). split.
  - intros Hin. apply Hq. rewrite Htail. apply in_or_app. now left.
  - destruct Hpre as [H | (query & H)].
    + exists tail. rewrite <- Htail. exact H.
    + exists (tail ++ ch "?" :: query). rewrite app_assoc, <- Htail. exact H.
Qed.

Lemma getBaseUrl_unparsed_witness :
  getBaseUrl URL_parse (js "host.com/live/?sid=1") = js "host.com/live".
Proof.
  apply (proj1 (@getBaseUrl_unparsed URL_parse (js "host.com/live/?sid=1") eq_refl)).
  reflexivity.
Defined.

(** ** The ShoutcastV2 and IcecastRaw probes *)

(** X8: in a ShoutcastV2 payload a title at the top level wins; without
    one, the title of the first stream is taken; and only of the first: when
    the first stream has no title the probe gives absent, whatever the later
    streams hold. *)
Theorem fetchShoutcastV2_precedence
    (net : network) (baseUrl : jsstring) (log : list jsstring)
    (r : response) (fields : list (jsstring * value)) :
  net (List.length log) (endpoint baseUrl "/stats?json=1") = Response r ->
  ok r = true ->
  body_json r = Some (VObj fields) ->
  (forall t, lookup (js "songtitle") fields = VStr t -> t <> [] ->
             fst (fetchShoutcastV2 net baseUrl log) = Fulfill (Some (clean t))) /\
  (forall first rest t,
      truthy (lookup (js "songtitle") fields) = false ->
      lookup (js "streams") fields = VArr (first :: rest) ->
      get first (js "songtitle") = Normal (VStr t) -> t <> [] ->
      fst (fetchShoutcastV2 net baseUrl log) = Fulfill (Some (clean t))) /\
  (forall first rest,
      truthy (lookup (js "songtitle") fields) = false ->
      lookup (js "streams") fields = VArr (first :: rest) ->
      truthy first = false
      \/ (exists v, get first (js "songtitle") = Normal v /\ truthy v = false) ->
      fst (fetchShoutcastV2 net baseUrl log) = Fulfill None).
Proof.
  intros Hnet Hok Hjson.
  rewrite fetchShoutcastV2_run, Hnet. cbn [fst].
  rewrite (proj2 (json_probe_value r Hok)), Hjson.
  unfold shoutcast2_title. cbn [truthy get cbind].
  repeat split.
  - intros t Ht Hne. rewrite Ht. destruct t as [|c t]; [congruence|]. reflexivity.
  - intros first rest t Hno Hstreams Hfirst Hne.
    rewrite Hno, Hstreams. cbn [truthy get0 hd cbind].
    destruct first; try discriminate Hfirst. cbn [truthy]. rewrite Hfirst.
    cbn [cbind]. destruct t as [|c t]; [congruence|]. reflexivity.
  - intros first rest Hno Hstreams Hcase.
    rewrite Hno, Hstreams. cbn [truthy get0 hd cbind].
    destruct Hcase as [Hf | (v & Hv & Hf)].
    + now rewrite Hf.
    + destruct (truthy first); [|reflexivity]. rewrite Hv. cbn [cbind]. now rewrite Hf.
Qed.

Lemma fetchShoutcastV2_precedence_witness :
  fst (run (fetchShoutcastV2 (always (json_ok payload_two_streams)) (js "http://host.com")))
  = Fulfill (Some (js "A - B")).
Proof.
  refine (proj1 (proj2 (@fetchShoutcastV2_precedence
                          (always (json_ok payload_two_streams)) (js "http://host.com") []
                          {| status := 200; body_text := None;
                             body_json := Some payload_two_streams |}
                          _ eq_refl eq_refl eq_refl))
            (obj [("songtitle"%string, str "A - B")])
            [obj [("songtitle"%string, str "C - D")]] (js "A - B")
            eq_refl eq_refl eq_refl _).
  intros H. discriminate H.
Defined.

Lemma lits_i_app (s1 s2 : string) : lits_i (s1 ++ s2) = lits_i s1 ++ lits_i s2.
Proof.
  induction s1 as [|a s1 IH]; cbn; [reflexivity | now rewrite IH].
Qed.

Lemma icecast_re_blocks :
  icecast_re = lits_i current_song_cell
               ++ GroupOpen :: Star false dot :: GroupClose :: lits_i "</td>".
Proof. reflexivity. Qed.

Lemma match_lits_i (s : string) (R : regex) :
  forall (m rest : jsstring) pos op cap,
    same_letters s m ->
    matchfrom (lits_i s ++ R) (m ++ rest) pos op cap
    = matchfrom R rest (pos + List.length m) op cap.
Proof.
  unfold same_letters.
  induction s as [|a s IH]; intros m rest pos op cap H; cbn in H; inversion H; subst.
  - cbn. now rewrite Nat.add_0_r.
  - cbn [lits_i app List.length].
    match goal with Hm : lit_i a _ = true |- _ => rewrite char_cons, Hm end.
    rewrite IH by assumption. now rewrite Nat.add_succ_comm.
Qed.

Lemma lit_i_lt (c : char) : c <> ch "<" -> lit_i "<" c = false.
Proof.
  intros Hc. unfold lit_i, upper.
  change (ch "<") with 60%N in *.
  change ((97 <=? 60) && (60 <=? 122))%N with false. cbv iota.
  destruct ((97 <=? c) && (c <=? 122))%N eqn:E; apply N.eqb_neq.
  - apply andb_true_iff in E as [E1 E2]. apply N.leb_le in E1, E2. lia.
  - exact Hc.
Qed.

Lemma lazy_cons (p : char -> bool) (R : regex) (s : jsstring) pos op cap :
  matchfrom (Star false p :: R) s pos op cap =
  match matchfrom R s pos op cap with
  | Some x => Some x
  | None =>
      match s with
      | c :: s' => if p c then matchfrom (Star false p :: R) s' (S pos) op cap else None
      | [] => None
      end
  end.
Proof. destruct s; reflexivity. Qed.

(** The lazy group stops at the first closing tag. *)
Lemma lazy_title (t close post : jsstring) :
  one_line t -> no_lt t -> same_letters "</td>" close ->
  forall pos op cap,
    matchfrom (Star false dot :: GroupClose :: lits_i "</td>") (t ++ close ++ post) pos op cap
    = Some (pos + List.length t + List.length close, Some (op, pos + List.length t)).
Proof.
  intros Hline Hlt Hclose.
  induction Hline as [|c t Hc _ IH]; intros pos op cap; rewrite lazy_cons.
  - cbn [app List.length].
    change (matchfrom (GroupClose :: lits_i "</td>") (close ++ post) pos op cap)
      with (matchfrom (lits_i "</td>" ++ []) (close ++ post) pos op (Some (op, pos))).
    rewrite (@match_lits_i "</td>" [] close post pos op _ Hclose).
    cbn [matchfrom]. now rewrite Nat.add_0_r.
  - inversion Hlt as [|? ? Hne Hlt']; subst.
    cbn [app List.length].
    change (matchfrom (GroupClose :: lits_i "</td>") (c :: t ++ close ++ post) pos op cap)
      with (if lit_i "<" c
            then matchfrom (lits_i "/td>") (t ++ close ++ post) (S pos) op (Some (op, pos))
            else None).
    rewrite (lit_i_lt Hne), Hc, (IH Hlt').
    now rewrite <- !Nat.add_succ_comm.
Qed.

Lemma search_skip (r : regex) (k : nat) :
  forall (s : jsstring) (pos : nat),
    k <= List.length s ->
    (forall n, n < k -> matchfrom r (skipn n s) (pos + n) (pos + n) None = None) ->
    search r s pos = search r (skipn k s) (pos + k).
Proof.
  induction k as [|k IH]; intros s pos Hk Hno.
  - cbn [skipn]. now rewrite Nat.add_0_r.
  - destruct s as [|c s]; [cbn in Hk; lia|].
    cbn [search skipn].
    pose proof (Hno 0 (Nat.lt_0_succ k)) as H0. cbn [skipn] in H0.
    rewrite Nat.add_0_r in H0. rewrite H0.
    rewrite <- Nat.add_succ_comm. apply IH; [cbn in Hk; lia|].
    intros n Hn. specialize (Hno (S n) (proj1 (Nat.succ_lt_mono n k) Hn)).
    cbn [skipn] in Hno. now rewrite <- Nat.add_succ_comm in Hno.
Qed.

Lemma no_match_before_spec (r : regex) (s : jsstring) (k : nat) :
  no_match_before r s k = true ->
  forall n, n < k -> matchfrom r (skipn n s) (0 + n) (0 + n) None = None.
Proof.
  unfold no_match_before. intros H n Hn.
  rewrite forallb_forall in H. specialize (H n).
  cbn [Nat.add]. destruct (matchfrom r (skipn n s) n n None); [|reflexivity].
  assert (Hin : In n (seq 0 k)) by (apply in_seq; lia).
  now apply H in Hin.
Qed.

Lemma substring_middle (a b c : jsstring) :
  substring (List.length a) (List.length a + List.length b) (a ++ b ++ c) = b.
Proof.
  unfold substring.
  replace (List.length a + List.length b - List.length a) with (List.length b) by lia.
  rewrite skipn_app, skipn_all, Nat.sub_diag. cbn [skipn app].
  rewrite firstn_app, firstn_all, Nat.sub_diag. cbn [firstn]. apply app_nil_r.
Qed.

(** X9: the IcecastRaw probe reads the first [Current Song:] cell of the
    page, in whatever letter case the markup is written, and takes the text
    of the next cell up to its closing tag: with a title free of [<] and of
    line breaks, the value is the sanitized title. *)
Theorem fetchIcecastRaw_first_cell
    (net : network) (baseUrl : jsstring) (log : list jsstring) (r : response)
    (pre m t close post : jsstring) :
  net (List.length log) (endpoint baseUrl "/status.xsl") = Response r ->
  ok r = true ->
  body_text r = Some (pre ++ m ++ t ++ close ++ post) ->
  same_letters current_song_cell m ->
  same_letters "</td>" close ->
  one_line t -> no_lt t ->
  no_match_before icecast_re (pre ++ m ++ t ++ close ++ post) (List.length pre) = true ->
  fst (fetchIcecastRaw net baseUrl log) = Fulfill (Some (clean t)).
Proof.
  intros Hnet Hok Hbody Hm Hclose Hline Hlt Hfirst.
  rewrite fetchIcecastRaw_run, Hnet. cbn [fst].
  rewrite (proj2 (text_probe_value r Hok)), Hbody.
  assert (Hmatch :
    String_match icecast_re (pre ++ m ++ t ++ close ++ post)
    = Some {| whole := m ++ t ++ close; group1 := Some t |}).
  { unfold String_match.
    rewrite (@search_skip icecast_re (List.length pre) _ 0)
      by (rewrite ?length_app; try lia; now apply no_match_before_spec).
    rewrite skipn_app, skipn_all, Nat.sub_diag. cbn [skipn app Nat.add].
    rewrite (@search_hit icecast_re _ _
               (List.length pre + List.length m + List.length t + List.length close)
               (Some (List.length pre + List.length m,
                      List.length pre + List.length m + List.length t))).
    - cbn [option_map]. f_equal. f_equal.
      + replace (pre ++ m ++ t ++ close ++ post) with (pre ++ (m ++ t ++ close) ++ post)
          by now rewrite <- !app_assoc.
        replace (List.length pre + List.length m + List.length t + List.length close)
          with (List.length pre + List.length (m ++ t ++ close))
          by (rewrite !length_app; lia).
        apply substring_middle.
      + f_equal.
        replace (pre ++ m ++ t ++ close ++ post) with ((pre ++ m) ++ t ++ close ++ post)
          by now rewrite <- !app_assoc.
        replace (List.length pre + List.length m) with (List.length (pre ++ m))
          by now rewrite length_app.
        apply substring_middle.
    - rewrite icecast_re_blocks, (@match_lits_i current_song_cell _ m _ _ _ _ Hm).
      change (matchfrom (GroupOpen :: Star false dot :: GroupClose :: lits_i "</td>")
                (t ++ close ++ post) (List.length pre + List.length m)
                (List.length pre) None)
        with (matchfrom (Star false dot :: GroupClose :: lits_i "</td>")
                (t ++ close ++ post) (List.length pre + List.length m)
                (List.length pre + List.length m) None).
      now rewrite (@lazy_title t close post Hline Hlt Hclose). }
  rewrite Hmatch. unfold group. cbn [group1]. now rewrite cleanMetadata_string.
Qed.

Lemma fetchIcecastRaw_first_cell_witness :
  fst (run (fetchIcecastRaw
              (always (text_ok (status_page_head ++ status_page_cell ++ js "A - B"
                                ++ js "</TD>" ++ js "</tr></table>")))
              (js "http://host.com")))
  = Fulfill (Some (js "A - B")).
Proof.
  unfold run.
  rewrite (@fetchIcecastRaw_first_cell _ (js "http://host.com") []
             {| status := 200;
                body_text := Some (status_page_head ++ status_page_cell ++ js "A - B"
                                   ++ js "</TD>" ++ js "</tr></table>");
                body_json := None |}
             status_page_head status_page_cell (js "A - B") (js "</TD>")
             (js "</tr></table>") eq_refl eq_refl eq_refl).
  - vm_compute. reflexivity.
  - repeat constructor.
  - repeat constructor.
  - repeat constructor.
  - repeat constructor; intros H; discriminate H.
  - vm_compute. reflexivity.
Defined.

(** ** The station directory *)

Section DirectoryFacts.

Variable net : network.
Variable lowercase : jsstring -> jsstring.
Variable ToString : value -> jsstring.
Variable sort_by_name : list country -> completion (list country).

(** X10: the two station queries never fail on their caller.  Each issues
    one request (for a country, with the code in lower case; for the top
    list, with the limit, 100 when none is given) and is fulfilled: with the
    parsed payload as it is when the status is a 2xx one and the body is
    JSON, and with the empty list on a network error, on any other status,
    where the [Error] thrown is caught again, and on a body that is not
    JSON. *)
Theorem station_queries_fall_back (countryCode : jsstring) (limit : value)
    (log : list jsstring) :
  let by_country :=
    API_BASE ++ js "/stations/bycountrycodeexact/" ++ lowercase countryCode in
  let top :=
    API_BASE ++ js "/stations/topvote/"
    ++ ToString (match limit with VUndefined => VNum (100 # 1) | _ => limit end) in
  (exists v,
      fetchStationsByCountry net lowercase countryCode log = (Fulfill v, log ++ [by_country])
      /\ (net (List.length log) by_country = NetworkError -> v = VArr [])
      /\ (forall r, net (List.length log) by_country = Response r ->
                    (ok r = false \/ body_json r = None -> v = VArr [])
                    /\ (forall data, ok r = true -> body_json r = Some data -> v = data)))
  /\
  (exists v,
      fetchTopStations net ToString limit log = (Fulfill v, log ++ [top])
      /\ (net (List.length log) top = NetworkError -> v = VArr [])
      /\ (forall r, net (List.length log) top = Response r ->
                    (ok r = false \/ body_json r = None -> v = VArr [])
                    /\ (forall data, ok r = true -> body_json r = Some data -> v = data))).
Proof.
  intros by_country top. split.
  - unfold fetchStationsByCountry, try_catch, bind, fetch, json, lift, ret.
    fold by_country.
    destruct (net (List.length log) by_country) as [|r] eqn:Hnet.
    + eexists. split; [reflexivity|]. split; [reflexivity|]. discriminate.
    + destruct (ok r) eqn:Hok; cbn [negb].
      * destruct (body_json r) as [data|] eqn:Hj;
          (eexists; split; [reflexivity|]; split; [discriminate|]);
          intros r' [= <-]; (split; [intros [H|H]; congruence|]);
          intros d _ Hd; congruence.
      * eexists. split; [reflexivity|]. split; [discriminate|].
        intros r' [= <-]. split; [reflexivity|]. intros d H. congruence.
  - unfold fetchTopStations, try_catch, bind, fetch, json, lift, ret.
    fold top.
    destruct (net (List.length log) top) as [|r] eqn:Hnet.
    + eexists. split; [reflexivity|]. split; [reflexivity|]. discriminate.
    + destruct (ok r) eqn:Hok; cbn [negb].
      * destruct (body_json r) as [data|] eqn:Hj;
          (eexists; split; [reflexivity|]; split; [discriminate|]);
          intros r' [= <-]; (split; [intros [H|H]; congruence|]);
          intros d _ Hd; congruence.
      * eexists. split; [reflexivity|]. split; [discriminate|].
        intros r' [= <-]. split; [reflexivity|]. intros d H. congruence.
Qed.

Lemma with_code_readable (elems : list value) :
  Forall readable elems -> with_code elems = Normal (filter coded elems).
Proof.
  induction 1 as [|c elems [(v & Hv) _] _ IH]; cbn [with_code filter]; [reflexivity|].
  rewrite Hv, IH. cbn [cbind]. unfold coded, iso_code. now rewrite Hv.
Qed.

Lemma to_countries_readable (elems : list value) :
  Forall readable elems -> Forall (fun c => coded c = true) elems ->
  to_countries lowercase elems = Normal (map (entry_of lowercase) elems).
Proof.
  induction 1 as [|c elems [(v & Hv) Hstr] _ IH]; intros Hc; cbn [to_countries map];
    [reflexivity|].
  inversion Hc as [|? ? Hcoded Hrest]; subst.
  rewrite (IH Hrest). destruct (Hstr Hcoded) as (s & Hs).
  unfold to_country, entry_of, field_of. rewrite Hs.
  unfold iso_code in Hs. rewrite Hv in Hs. subst v. rewrite Hv. cbn [cbind toLowerCase_of].
  destruct c; try discriminate Hv; reflexivity.
Qed.

(** X11: the list of countries.  The call issues one request and is always
    fulfilled.  From a list of readable elements it returns exactly the
    entries of the elements with a code, each with the code in lower case,
    none lost and none added, in the order the sort by name puts them; all
    the theorem takes from that sort is that it permutes its input.  The
    call returns the empty list when the request or the status fails, when
    the body is not a JSON list, when one element is [null], and when the
    sort throws. *)
Theorem fetchAvailableCountries_entries (log : list jsstring) :
  (forall l sorted, sort_by_name l = Normal sorted -> Permutation l sorted) ->
  let url := API_BASE ++ js "/countries" in
  (exists v, fetchAvailableCountries net lowercase sort_by_name log
             = (Fulfill v, log ++ [url])) /\
  (net (List.length log) url = NetworkError ->
   fst (fetchAvailableCountries net lowercase sort_by_name log) = Fulfill []) /\
  (forall r, net (List.length log) url = Response r ->
     (ok r = false \/ body_json r = None ->
      fst (fetchAvailableCountries net lowercase sort_by_name log) = Fulfill []) /\
     (forall data, ok r = true -> body_json r = Some data ->
        (forall elems,
            data = VArr elems -> Forall readable elems ->
            exists entries,
              fst (fetchAvailableCountries net lowercase sort_by_name log) = Fulfill entries
              /\ (sort_by_name (map (entry_of lowercase) (filter coded elems)) = Throw ->
                  entries = [])
              /\ (forall sorted,
                     sort_by_name (map (entry_of lowercase) (filter coded elems))
                     = Normal sorted ->
                     entries = sorted
                     /\ Permutation (map (entry_of lowercase) (filter coded elems)) entries
                     /\ (forall e, In e entries <->
                                   exists c, In c elems /\ coded c = true
                                             /\ e = entry_of lowercase c)
                     /\ List.length entries = List.length (filter coded elems))) /\
        ((forall elems, data <> VArr elems) ->
         fst (fetchAvailableCountries net lowercase sort_by_name log) = Fulfill []) /\
        (forall elems, data = VArr elems -> In VNull elems ->
         fst (fetchAvailableCountries net lowercase sort_by_name log) = Fulfill []))).
Proof.
  intros Hperm url.
  unfold fetchAvailableCountries, try_catch, bind, fetch, json, lift, ret. fold url.
  destruct (net (List.length log) url) as [|r] eqn:Hnet.
  { split; [eexists; reflexivity|]. split; [reflexivity | discriminate]. }
  assert (Hcount : forall elems, Forall readable elems ->
            countries_of lowercase sort_by_name (VArr elems)
            = sort_by_name (map (entry_of lowercase) (filter coded elems))).
  { intros elems Hr. unfold countries_of. rewrite (with_code_readable Hr). cbn [cbind].
    rewrite to_countries_readable; [reflexivity | |].
    - apply Forall_forall. intros c Hc. apply filter_In in Hc as [Hc _].
      now apply (proj1 (Forall_forall _ _) Hr).
    - apply Forall_forall. intros c Hc. now apply filter_In in Hc as [_ Hc]. }
  assert (Hnull : forall elems, In VNull elems -> with_code elems = Throw).
  { induction elems as [|c elems IH]; intros Hin; [destruct Hin|].
    cbn [with_code]. destruct Hin as [-> | Hin]; [reflexivity|].
    destruct (get c (js "iso_3166_1")); [|reflexivity]. cbn [cbind].
    now rewrite (IH Hin). }
  destruct (ok r) eqn:Hok; cbn [negb].
  2:{ split; [eexists; reflexivity|]. split; [discriminate|].
      intros r' [= <-]. split; [reflexivity|]. intros data H. congruence. }
  destruct (body_json r) as [data|] eqn:Hj.
  2:{ split; [eexists; reflexivity|]. split; [discriminate|].
      intros r' [= <-]. split; [reflexivity|]. intros data _ H. congruence. }
  split.
  { destruct (countries_of lowercase sort_by_name data); eexists; reflexivity. }
  split; [discriminate|].
  intros r' [= <-]. split; [intros [H|H]; congruence|].
  intros data' _ Hd. rewrite Hj in Hd. injection Hd as <-. repeat split.
  - intros elems -> Hr. rewrite (Hcount _ Hr).
    destruct (sort_by_name (map (entry_of lowercase) (filter coded elems)))
      as [sorted|] eqn:Hsort; cbn [fst].
    + exists sorted. split; [reflexivity|]. split; [discriminate|].
      intros sorted' [= <-]. pose proof (Hperm _ _ Hsort) as Hp.
      split; [reflexivity|]. split; [exact Hp|]. split.
      * intros e. split.
        -- intros Hin. apply (Permutation_in _ (Permutation_sym Hp)) in Hin.
           apply in_map_iff in Hin as (c & <- & Hc).
           apply filter_In in Hc as [Hc Hcoded]. now exists c.
        -- intros (c & Hc & Hcoded & ->). apply (Permutation_in _ Hp).
           apply in_map. now apply filter_In.
      * rewrite <- (Permutation_length Hp). apply length_map.
    + exists []. split; [reflexivity|]. split; [reflexivity | discriminate].
  - intros Hnot. destruct data; try reflexivity. now destruct (Hnot elems).
  - intros elems -> Hin. unfold countries_of. now rewrite (Hnull _ Hin).
Qed.

End DirectoryFacts.

Lemma station_queries_fall_back_witness :
  fetchStationsByCountry (always not_found) toLowerCase (js "DE") []
  = (Fulfill (VArr []),
     [js "https://de1.api.radio-browser.info/json/stations/bycountrycodeexact/de"]).
Proof.
  destruct (@station_queries_fall_back (always not_found) toLowerCase
              (fun _ => js "100") (js "DE") VUndefined [])
    as [(v & Hrun & _ & H) _].
  rewrite Hrun.
  destruct (H _ eq_refl) as [Hfail _].
  rewrite (Hfail (or_introl eq_refl)). reflexivity.
Defined.

Lemma insert_by_name_permutes (e : country) (l : list country) :
  Permutation (e :: l) (insert_by_name e l).
Proof.
  induction l as [|x l IH]; cbn [insert_by_name]; [apply Permutation_refl|].
  destruct (units_leb (name_units e) (name_units x)); [apply Permutation_refl|].
  apply perm_trans with (x :: e :: l); [apply perm_swap | now apply perm_skip].
Qed.

Lemma sort_by_units_permutes (l sorted : list country) :
  sort_by_units l = Normal sorted -> Permutation l sorted.
Proof.
  unfold sort_by_units. intros [= <-].
  induction l as [|e l IH]; cbn [fold_right]; [apply Permutation_refl|].
  apply perm_trans with (e :: fold_right insert_by_name [] l);
    [now apply perm_skip | apply insert_by_name_permutes].
Qed.

Lemma fetchAvailableCountries_entries_witness :
  fst (run (fetchAvailableCountries (always (json_ok payload_countries)) toLowerCase
              sort_by_units))
  = Fulfill [ {| code := js "at"; name := str "Austria"; count := VUndefined |};
              {| code := js "de"; name := str "Germany"; count := VNum (5 # 1) |} ].
Proof.
  destruct (@fetchAvailableCountries_entries (always (json_ok payload_countries))
              toLowerCase sort_by_units [] sort_by_units_permutes)
    as (_ & _ & H).
  destruct (H _ eq_refl) as [_ Hok].
  destruct (Hok payload_countries eq_refl eq_refl) as [Hgood _].
  destruct (Hgood _ eq_refl) as (entries & Hrun & _ & Hsorted).
  - repeat constructor; try (eexists; reflexivity);
      intros Hc; try discriminate Hc; eexists; reflexivity.
  - unfold run. rewrite Hrun. f_equal.
    apply (proj1 (Hsorted _ eq_refl)).
Defined.

(** ** The callers of the resolver *)

Section CallerFacts.

Variable net : network.
Variable new_URL : jsstring -> option URL.
Variable sched : list nat.

(** A call of the resolver ends in one of three ways. *)
Lemma fetchLiveMetadata_outcomes (streamUrl : option jsstring) :
  fst (run (fetchLiveMetadata net new_URL sched streamUrl)) = Fulfill None
  \/ (exists c s, fst (run (fetchLiveMetadata net new_URL sched streamUrl))
                  = Fulfill (Some (c :: s)) /\ Metadata (c :: s))
  \/ fst (run (fetchLiveMetadata net new_URL sched streamUrl)) = Pending.
Proof.
  destruct streamUrl as [[|c u]|]; try (left; reflexivity).
  unfold fetchLiveMetadata. rewrite fetchLiveMetadata_with_run. cbn [fst].
  pose proof (@probe_values_sanitized net (getBaseUrl new_URL (c :: u))
                (before_query (c :: u))) as Hsan.
  generalize dependent (probe_values net (getBaseUrl new_URL (c :: u))
                          (before_query (c :: u))).
  intros vs Hsan.
  destruct (allSettled_fulfilled sched vs) as [-> | ->]; [|now right; right].
  rewrite first_content_filter.
  destruct (first_content_cases vs) as [-> | (c0 & s0 & -> & Hin)]; [now left|].
  right. left. exists c0, s0. split; [reflexivity|].
  destruct (Hsan _ Hin) as [text Ht]. now apply cleanMetadata_Metadata with text.
Qed.

Lemma fetchLiveMetadata_covered (c : char) (u : jsstring) :
  (forall i, i < 7 -> In i sched) ->
  fetchLiveMetadata net new_URL sched (Some (c :: u)) [] =
  (Fulfill (first_content
              (probe_values net (getBaseUrl new_URL (c :: u)) (before_query (c :: u)))),
   requests (getBaseUrl new_URL (c :: u)) (before_query (c :: u))).
Proof.
  intros Hall.
  change (fetchLiveMetadata net new_URL sched (Some (c :: u)) [])
    with (run (fetchLiveMetadata net new_URL sched (Some (c :: u)))).
  unfold fetchLiveMetadata. rewrite fetchLiveMetadata_with_run.
  rewrite allSettled_complete by exact Hall.
  now rewrite first_content_filter.
Qed.

Lemma fetchLiveMetadata_waiting (c : char) (u : jsstring) (i : nat) :
  i < 7 -> ~ In i sched ->
  fetchLiveMetadata net new_URL sched (Some (c :: u)) [] =
  (Pending, requests (getBaseUrl new_URL (c :: u)) (before_query (c :: u))).
Proof.
  intros Hi Hout.
  change (fetchLiveMetadata net new_URL sched (Some (c :: u)) [])
    with (run (fetchLiveMetadata net new_URL sched (Some (c :: u)))).
  unfold fetchLiveMetadata. rewrite fetchLiveMetadata_with_run.
  rewrite (@allSettled_waits _ sched
             (probe_values net (getBaseUrl new_URL (c :: u)) (before_query (c :: u)))
             i Hi Hout).
  reflexivity.
Qed.

Lemma first_content_shown (vs : list (option jsstring)) (old : option jsstring) :
  match first_content vs with
  | Some (c :: t) => Some (c :: t)
  | _ => old
  end
  = match first_content vs with
    | Some song => Some song
    | None => old
    end.
Proof.
  destruct (first_content_cases vs) as [-> | (c & t & -> & _)]; reflexivity.
Qed.

(** X12: what a synchronisation of the player leaves behind.  Without a
    station, or when nothing plays, it touches neither the state nor the
    network.  Otherwise, on a station with an address: once the seven probes
    have settled the call is fulfilled, the syncing flag is down, and the
    song shown is the first probe value with content, or, when no probe has
    one, the song shown before; as long as one probe has not settled the
    call is pending with the flag up and the song as before.  A station
    without an address leaves the song and issues no request.  The promise
    is never rejected, and a song newly shown is a non-empty text within
    the Metadata invariant. *)
Theorem handleSyncMetadata_state
    (currentStation : option station) (isPlaying : bool) (st : player) :
  (currentStation = None \/ isPlaying = false ->
   handleSyncMetadata net new_URL sched currentStation isPlaying st []
   = (Fulfill tt, st, [])) /\
  (forall s, currentStation = Some s -> isPlaying = true ->
     (stream_address s = None \/ stream_address s = Some [] ->
      handleSyncMetadata net new_URL sched currentStation isPlaying st []
      = (Fulfill tt, {| liveSong := liveSong st; isSyncing := false |}, [])) /\
     (forall c u, stream_address s = Some (c :: u) ->
        ((forall i, i < 7 -> In i sched) ->
         handleSyncMetadata net new_URL sched currentStation isPlaying st []
         = (Fulfill tt,
            {| liveSong :=
                 match first_content (probe_values net (getBaseUrl new_URL (c :: u))
                                        (before_query (c :: u))) with
                 | Some song => Some song
                 | None => liveSong st
                 end;
               isSyncing := false |},
            requests (getBaseUrl new_URL (c :: u)) (before_query (c :: u)))) /\
        (forall i, i < 7 -> ~ In i sched ->
         handleSyncMetadata net new_URL sched currentStation isPlaying st []
         = (Pending, {| liveSong := liveSong st; isSyncing := true |},
            requests (getBaseUrl new_URL (c :: u)) (before_query (c :: u)))))) /\
  fst (fst (handleSyncMetadata net new_URL sched currentStation isPlaying st [])) <> Reject /\
  (liveSong (snd (fst (handleSyncMetadata net new_URL sched currentStation isPlaying st [])))
   = liveSong st
   \/ exists c t,
        liveSong (snd (fst (handleSyncMetadata net new_URL sched currentStation
                              isPlaying st [])))
        = Some (c :: t) /\ Metadata (c :: t)).
Proof.
  split; [|split; [|split]].
  - intros [-> | ->]; [reflexivity | now destruct currentStation].
  - intros s -> ->. unfold handleSyncMetadata. split.
    + intros [-> | ->]; reflexivity.
    + intros c u ->. split.
      * intros Hall. rewrite (fetchLiveMetadata_covered _ _ Hall).
        now rewrite first_content_shown.
      * intros i Hi Hout. now rewrite (@fetchLiveMetadata_waiting c u i Hi Hout).
  - unfold handleSyncMetadata. destruct currentStation as [s|]; [|discriminate].
    destruct isPlaying; [|discriminate].
    destruct (fetchLiveMetadata net new_URL sched (stream_address s) []) as [[song| |] l];
      discriminate.
  - unfold handleSyncMetadata. destruct currentStation as [s|]; [|now left].
    destruct isPlaying; [|now left].
    pose proof (fetchLiveMetadata_outcomes (stream_address s)) as Hout.
    unfold run in Hout.
    destruct (fetchLiveMetadata net new_URL sched (stream_address s) []) as [[song| |] l];
      cbn [fst snd liveSong] in *; try (now left).
    destruct Hout as [H | [(c & t & H & Hm) | H]]; try discriminate H;
      injection H as ->; [now left | right; now exists c, t].
Qed.

(** X13: what an update of a station card leaves behind.  A card that is
    not the active one, or whose station does not play, clears its text and
    issues no request.  An active card with a playing station: once the
    seven probes have settled the call is fulfilled and the text is the
    first probe value with content, or, when no probe has one, the text the
    card had; as long as one probe has not settled the call is pending and
    the text as before.  The promise is never rejected, though the update
    has no handler of its own, since the resolver never rejects. *)
Theorem updateMetadata_state
    (isActive isPlaying : bool) (s : station) (liveMetadata : option jsstring) :
  (isActive && isPlaying = false ->
   updateMetadata net new_URL sched isActive isPlaying s liveMetadata []
   = (Fulfill tt, None, [])) /\
  (isActive && isPlaying = true ->
     (stream_address s = None \/ stream_address s = Some [] ->
      updateMetadata net new_URL sched isActive isPlaying s liveMetadata []
      = (Fulfill tt, liveMetadata, [])) /\
     (forall c u, stream_address s = Some (c :: u) ->
        ((forall i, i < 7 -> In i sched) ->
         updateMetadata net new_URL sched isActive isPlaying s liveMetadata []
         = (Fulfill tt,
            match first_content (probe_values net (getBaseUrl new_URL (c :: u))
                                   (before_query (c :: u))) with
            | Some song => Some song
            | None => liveMetadata
            end,
            requests (getBaseUrl new_URL (c :: u)) (before_query (c :: u)))) /\
        (forall i, i < 7 -> ~ In i sched ->
         updateMetadata net new_URL sched isActive isPlaying s liveMetadata []
         = (Pending, liveMetadata,
            requests (getBaseUrl new_URL (c :: u)) (before_query (c :: u)))))) /\
  fst (fst (updateMetadata net new_URL sched isActive isPlaying s liveMetadata []))
  <> Reject.
Proof.
  unfold updateMetadata. split; [|split].
  - now intros ->.
  - intros ->. split.
    + intros [-> | ->]; reflexivity.
    + intros c u ->. split.
      * intros Hall. rewrite (fetchLiveMetadata_covered _ _ Hall).
        now rewrite first_content_shown.
      * intros i Hi Hout. now rewrite (@fetchLiveMetadata_waiting c u i Hi Hout).
  - destruct (isActive && isPlaying); [|discriminate].
    pose proof (fetchLiveMetadata_outcomes (stream_address s)) as Hout.
    unfold run in Hout.
    destruct (fetchLiveMetadata net new_URL sched (stream_address s) []) as [[song| |] l];
      cbn [fst] in *; try discriminate.
    destruct Hout as [H | [(c & t & H & _) | H]]; discriminate H.
Qed.

End CallerFacts.

Lemma handleSyncMetadata_state_witness :
  handleSyncMetadata net_empty_title URL_parse [6; 5; 4; 3; 2; 1; 0]
    (Some (station_at "id-1" "http://host.com/live")) true
    {| liveSong := Some (js "Old"); isSyncing := false |} []
  = (Fulfill tt, {| liveSong := Some (js "Song"); isSyncing := false |},
     requests (js "http://host.com") (js "http://host.com/live")).
Proof.
  destruct (@handleSyncMetadata_state net_empty_title URL_parse [6; 5; 4; 3; 2; 1; 0]
              (Some (station_at "id-1" "http://host.com/live")) true
              {| liveSong := Some (js "Old"); isSyncing := false |})
    as (_ & H & _).
  destruct (H _ eq_refl eq_refl) as [_ Haddr].
  destruct (Haddr _ _ eq_refl) as [Hdone _].
  rewrite Hdone; [vm_compute; reflexivity|].
  intros i Hi. do 7 (destruct i as [|i]; [cbn; tauto|]). lia.
Defined.

Lemma updateMetadata_state_witness :
  updateMetadata net_empty_title URL_parse [6; 5; 4; 3; 2; 1; 0] true true
    (station_at "id-1" "http://host.com/live") (Some (js "Old")) []
  = (Fulfill tt, Some (js "Song"),
     requests (js "http://host.com") (js "http://host.com/live")).
Proof.
  destruct (@updateMetadata_state net_empty_title URL_parse [6; 5; 4; 3; 2; 1; 0]
              true true (station_at "id-1" "http://host.com/live") (Some (js "Old")))
    as (_ & H & _).
  destruct (H eq_refl) as [_ Haddr].
  destruct (Haddr _ _ eq_refl) as [Hdone _].
  rewrite Hdone; [vm_compute; reflexivity|].
  intros i Hi. do 7 (destruct i as [|i]; [cbn; tauto|]). lia.
Defined.

(** ** The shared state *)

Section Lists.

Context {A B : Type}.
Variable f : A -> B.

Lemma NoDup_map_filter (p : A -> bool) (l : list A) :
  NoDup (map f l) -> NoDup (map f (filter p l)).
Proof.
  induction l as [|a l IH]; cbn; intros H; [constructor|].
  inversion H as [|? ? Hnotin Hnd]; subst.
  destruct (p a); cbn; [|now apply IH].
  constructor; [|now apply IH].
  intros Hin. apply Hnotin. apply in_map_iff in Hin as (x & Hx & Hin).
  apply filter_In in Hin as [Hin _]. apply in_map_iff. eauto.
Qed.

Lemma NoDup_map_firstn (n : nat) (l : list A) :
  NoDup (map f l) -> NoDup (map f (firstn n l)).
Proof.
  revert n. induction l as [|a l IH]; intros [|n] H; cbn; try constructor.
  - inversion H as [|? ? Hnotin Hnd]; subst.
    intros Hin. apply Hnotin. apply in_map_iff in Hin as (x & Hx & Hin).
    apply in_map_iff. exists x. split; [exact Hx|].
    rewrite <- (firstn_skipn n l). apply in_or_app. now left.
  - inversion H; subst. now apply IH.
Qed.

Lemma In_firstn (n : nat) (l : list A) (x : A) : In x (firstn n l) -> In x l.
Proof.
  intros H. rewrite <- (firstn_skipn n l). apply in_or_app. now left.
Qed.

End Lists.

(** X14: playing a station that is not the current one makes it the
    current one, starts playback and puts it at the head of the recent
    list: the list then has at most 15 entries, holds this station's
    identifier exactly once, holds nothing that was not there before, and
    has no identifier twice if it had none twice before.  Playing the
    current station only toggles playback. *)
Theorem playStation_recents (s : station) (st : playback) :
  (same_station (currentStation st) s = false ->
   currentStation (playStation s st) = Some s /\
   isPlaying (playStation s st) = true /\
   List.length (recentStations (playStation s st)) <= 15 /\
   hd_error (recentStations (playStation s st)) = Some s /\
   List.length (filter (fun r => str_eqb (stationuuid r) (stationuuid s))
                  (recentStations (playStation s st))) = 1 /\
   (forall r, In r (recentStations (playStation s st)) ->
              r = s \/ In r (recentStations st)) /\
   (NoDup (map stationuuid (recentStations st)) ->
    NoDup (map stationuuid (recentStations (playStation s st))))) /\
  (same_station (currentStation st) s = true ->
   playStation s st = {| currentStation := currentStation st;
                         isPlaying := negb (isPlaying st);
                         recentStations := recentStations st |}).
Proof.
  unfold playStation. split; intros Hsame; rewrite Hsame; [|reflexivity].
  cbn [currentStation isPlaying recentStations]. unfold recent_with. cbv zeta.
  set (others := filter _ (recentStations st)).
  assert (Hothers : forall r, In r (firstn 14 others) ->
            str_eqb (stationuuid r) (stationuuid s) = false /\ In r (recentStations st)).
  { intros r Hr. apply In_firstn in Hr. apply filter_In in Hr as [Hin Hp].
    split; [now apply negb_true_iff in Hp | exact Hin]. }
  change (firstn 15 (s :: others)) with (s :: firstn 14 others).
  repeat split.
  - cbn [List.length]. pose proof (firstn_le_length 14 others). lia.
  - cbn [filter]. rewrite (proj2 (str_eqb_eq _ _) eq_refl). cbn [List.length]. f_equal.
    replace (filter _ (firstn 14 others)) with (@nil station); [reflexivity|].
    symmetry. induction (firstn 14 others) as [|r l IH]; [reflexivity|].
    cbn [filter]. rewrite (proj1 (Hothers r (or_introl eq_refl))).
    apply IH. intros r' Hr'. apply Hothers. now right.
  - intros r [<- | Hr]; [now left | right; now apply Hothers].
  - intros Hnd. cbn [map]. constructor.
    + intros Hin. apply in_map_iff in Hin as (r & Hr & Hin).
      apply Hothers in Hin as [Hne _]. apply str_eqb_neq in Hne. congruence.
    + now apply NoDup_map_firstn, NoDup_map_filter.
Qed.

Lemma playStation_recents_witness :
  recentStations
    (playStation (station_at "b" "http://b.example/live")
       {| currentStation := Some (station_at "a" "http://a.example/live");
          isPlaying := true;
          recentStations := [station_at "a" "http://a.example/live";
                             station_at "b" "http://b.example/live"] |})
  = [station_at "b" "http://b.example/live"; station_at "a" "http://a.example/live"]
  /\ NoDup (map stationuuid
              (recentStations
                 (playStation (station_at "b" "http://b.example/live")
                    {| currentStation := Some (station_at "a" "http://a.example/live");
                       isPlaying := true;
                       recentStations := [station_at "a" "http://a.example/live";
                                          station_at "b" "http://b.example/live"] |}))).
Proof.
  split; [vm_compute; reflexivity|].
  apply (proj1 (@playStation_recents (station_at "b" "http://b.example/live")
                  {| currentStation := Some (station_at "a" "http://a.example/live");
                     isPlaying := true;
                     recentStations := [station_at "a" "http://a.example/live";
                                        station_at "b" "http://b.example/live"] |})
           eq_refl).
  cbn [map recentStations stationuuid station_at].
  constructor; [intros [H|[]]; discriminate H|].
  constructor; [intros []|]. constructor.
Defined.

Lemma existsb_filter_other (id key : jsstring) (l : list station) :
  id <> key ->
  existsb (fun f => str_eqb (stationuuid f) id)
    (filter (fun f => negb (str_eqb (stationuuid f) key)) l)
  = existsb (fun f => str_eqb (stationuuid f) id) l.
Proof.
  intros Hne. induction l as [|f l IH]; cbn [filter existsb]; [reflexivity|].
  destruct (str_eqb (stationuuid f) key) eqn:Ek; cbn [negb existsb].
  - apply str_eqb_eq in Ek. rewrite IH.
    replace (str_eqb (stationuuid f) id) with false; [reflexivity|].
    symmetry. apply str_eqb_neq. congruence.
  - now rewrite IH.
Qed.

Lemma existsb_filter_same (key : jsstring) (l : list station) :
  existsb (fun f => str_eqb (stationuuid f) key)
    (filter (fun f => negb (str_eqb (stationuuid f) key)) l) = false.
Proof.
  induction l as [|f l IH]; cbn [filter existsb]; [reflexivity|].
  destruct (str_eqb (stationuuid f) key) eqn:Ek; cbn [negb existsb]; [exact IH|].
  now rewrite Ek, IH.
Qed.

Lemma filter_absent (key : jsstring) (l : list station) :
  existsb (fun f => str_eqb (stationuuid f) key) l = false ->
  filter (fun f => negb (str_eqb (stationuuid f) key)) l = l.
Proof.
  induction l as [|f l IH]; cbn [filter existsb]; [reflexivity|].
  intros H. apply orb_false_iff in H as [Hf Hl]. rewrite Hf. cbn [negb].
  now rewrite IH.
Qed.

(** X15: toggling a favorite flips what [isStationFavorite] answers for
    that station and for no other identifier; and toggling twice a station
    that was no favorite gives the list back as it was. *)
Theorem toggleFavorite_flips (s : station) (prev : list station) :
  isStationFavorite (toggleFavorite s prev) (stationuuid s)
  = negb (isStationFavorite prev (stationuuid s)) /\
  (forall id, id <> stationuuid s ->
              isStationFavorite (toggleFavorite s prev) id = isStationFavorite prev id) /\
  (isStationFavorite prev (stationuuid s) = false ->
   toggleFavorite s (toggleFavorite s prev) = prev).
Proof.
  unfold isStationFavorite, toggleFavorite. cbv zeta.
  destruct (existsb (fun f => str_eqb (stationuuid f) (stationuuid s)) prev) eqn:Efav.
  - split; [apply existsb_filter_same|]. split; [|discriminate].
    intros id Hid. now apply existsb_filter_other.
  - assert (Hself : str_eqb (stationuuid s) (stationuuid s) = true)
      by now apply str_eqb_eq.
    split; [|split].
    + rewrite existsb_app. cbn [existsb]. rewrite Hself. now rewrite !orb_true_r.
    + intros id Hid. rewrite existsb_app. cbn [existsb].
      replace (str_eqb (stationuuid s) id) with false; [now rewrite !orb_false_r|].
      symmetry. apply str_eqb_neq. congruence.
    + intros _. rewrite existsb_app. cbn [existsb]. rewrite Hself, !orb_true_r.
      rewrite filter_app. cbn [filter]. rewrite Hself. cbn [negb].
      rewrite (filter_absent _ _ Efav). apply app_nil_r.
Qed.

Lemma toggleFavorite_flips_witness :
  toggleFavorite (station_at "b" "http://b.example/live")
    (toggleFavorite (station_at "b" "http://b.example/live")
       [station_at "a" "http://a.example/live"])
  = [station_at "a" "http://a.example/live"].
Proof.
  apply (proj2 (proj2 (toggleFavorite_flips (station_at "b" "http://b.example/live")
                         [station_at "a" "http://a.example/live"]))).
  reflexivity.
Defined.

Lemma to_double_exact (z : Z) : (Z.abs z <= 2 ^ 53)%Z -> to_double z = z.
Proof.
  intros H. unfold to_double. destruct (Z.leb_spec (Z.abs z) (2 ^ 53)); [reflexivity | lia].
Qed.

(** Above [2^53] the countdown can stall: one less than this number of
    seconds is not a double, and the nearest double is the number itself. *)
Lemma tick_stalls :
  tick (Some 9007199254741020%Z, true) = (Some 9007199254741020%Z, true).
Proof. vm_compute. reflexivity. Qed.

Lemma tick_countdown (m : Z) (j : nat) (p : bool) :
  (1 <= m <= 2 ^ 53)%Z ->
  Nat.iter j tick (Some m, p) =
  if (Z.of_nat j <? m)%Z then (Some (m - Z.of_nat j)%Z, p) else (None, false).
Proof.
  intros Hm. induction j as [|j IH].
  - change (Nat.iter 0 tick (Some m, p)) with (Some m, p). change (Z.of_nat 0) with 0%Z.
    destruct (Z.ltb_spec 0 m); [|lia]. now rewrite Z.sub_0_r.
  - rewrite Nat.iter_succ, IH.
    destruct (Z.ltb_spec (Z.of_nat j) m) as [Hlt|Hge];
      destruct (Z.ltb_spec (Z.of_nat (S j)) m) as [Hlt'|Hge']; try lia; cbn [tick].
    + destruct (Z.leb_spec (m - Z.of_nat j) 1); [lia|].
      rewrite to_double_exact by lia.
      replace (m - Z.of_nat (S j))%Z with (m - Z.of_nat j - 1)%Z by lia.
      reflexivity.
    + destruct (Z.leb_spec (m - Z.of_nat j) 1); [reflexivity | lia].
    + reflexivity.
Qed.

(** X16: a sleep timer set to a whole number [mins > 0] of minutes, with
    [60 * mins] at most [2^53] so that every count is an exact double,
    counts down by one each tick and leaves playback alone until the tick
    that finds one second left: after [k < 60 * mins] ticks it shows
    [60 * mins - k] and playback is as it was; from tick number [60 * mins]
    on it is off and playback is stopped.  A timer set to 0 minutes is off
    and stops nothing. *)
Theorem sleep_timer_countdown (mins : Z) (k : nat) (playing : bool) :
  (0 < mins)%Z -> (mins * 60 <= 2 ^ 53)%Z ->
  Nat.iter k tick (handleSetTimer mins, playing) =
    (if (Z.of_nat k <? mins * 60)%Z
     then (Some (mins * 60 - Z.of_nat k)%Z, playing)
     else (None, false))
  /\ Nat.iter k tick (handleSetTimer 0, playing) = (None, playing).
Proof.
  intros Hmins Hbound. split.
  - unfold handleSetTimer. destruct (Z.eqb_spec mins 0); [lia|].
    rewrite to_double_exact by lia.
    apply tick_countdown. lia.
  - change (handleSetTimer 0) with (@None Z).
    induction k as [|k IH]; [reflexivity|]. now rewrite Nat.iter_succ, IH.
Qed.

Lemma sleep_timer_countdown_witness :
  Nat.iter 900 tick (handleSetTimer 15%Z, true) = (None, false).
Proof.
  apply (proj1 (@sleep_timer_countdown 15%Z 900 true ltac:(lia) ltac:(vm_compute; discriminate))).
Defined.
